(** * The Android event queue and [android_select] of src/android.c

    A shallow embedding of the event-handling part of [android.c]
    (lines 154-455): the circular queue of events, the thread that runs
    [pselect] on behalf of the Emacs thread, and [android_select], which
    waits for both at once.

    The program is concurrent.  It is modelled as a labelled transition
    system: every thread has a program counter that names the statement it
    executes next, a label says which thread takes a step (and what the
    platform answers where the answer is not determined by the program), and
    [step] executes that one statement on the shared state.  Blocking calls
    are statements that have no step while their condition is false.

    Conventions.
    - C [int] values are [Z]; signed overflow is undefined behaviour in C and
      has no step in the model.
    - Memory is a finite map from addresses to containers; an access
      through an address that is not allocated has no step, and neither has
      [free] of an object that [malloc] did not return.
    - [eassert] is a macro of lisp.h.  What it does depends on how the
      program was built, which the state records in [checking]: with
      ENABLE_CHECKING a false condition stops the program, without it the
      condition is not looked at. *)

From stdpp Require Import gmap list fin_maps.
From Stdlib Require Import ZArith Lia.
Local Open Scope Z_scope.

(** ** Data *)
Definition INT_MAX : Z := 2147483647.

Definition INT_MIN : Z := -2147483648.

Definition in_int (z : Z) : bool := (INT_MIN <=? z) && (z <=? INT_MAX).

(** [union android_event], as the three producers of android.c fill it
    (lines 1081-1129). *)
Inductive android_event_type :=
| ANDROID_KEY_PRESS
| ANDROID_KEY_RELEASE
| ANDROID_CONFIGURE_NOTIFY.

Inductive android_event :=
| xconfigure (window time x y width height : Z)
| xkey (type : android_event_type) (window time state keycode : Z).

(** Addresses.  [events_addr] is [&event_queue.events], the sentinel of the
    circular list, which is static storage. *)
Definition events_addr : positive := 1%positive.

(** [struct android_event_container] *)
Record android_event_container := Container {
  next : positive;
  last : positive;
  event : android_event;
}.

(** The arguments of [android_select], stored in [android_pselect_nfds],
    [android_pselect_readfds], ... for the select thread.  Pointers are
    opaque numbers. *)
Record pselect_args := PselectArgs {
  nfds : Z;
  readfds : Z;
  writefds : Z;
  exceptfds : Z;
  timeout : Z;
  sigset : Z;
}.

(** ** Threads *)
Inductive tid :=
| Consumer              (* the Emacs thread *)
| Proxy                 (* event_queue.select_thread *)
| Producer (n : nat)     (* a thread calling android_write_event *).

Global Instance tid_eq_dec : EqDecision tid.
Proof. solve_decision. Defined.

(** What the Emacs thread can call, and what a call returned. *)
Inductive call :=
| CallSelect (a : pselect_args)
| CallNextEvent
| CallPending.

Inductive result :=
| RSelect (n : Z)
| RNextEvent (e : android_event)
| RPending (i : Z).

(** Program counter of the Emacs thread.  The number in a comment is the
    line of android.c that the thread executes next. *)
Inductive cpc :=
| CIdle
| CDone (r : result)
| CAbort                                   (* 359: eassert failed *)
(* android_select *)
| SelLock (a : pselect_args)               (* 410 *)
| SelCheck (a : pselect_args)              (* 412 *)
| SelEarlyUnlock                           (* 414, 415 *)
| SelClear (a : pselect_args)              (* 418, 419 *)
| SelLockSel (a : pselect_args)            (* 421 *)
| SelWriteArgs (a : pselect_args)          (* 422-427 *)
| SelUnlockSel                             (* 428 *)
| SelKillUsr2                              (* 430 *)
| SelCondWait                              (* 431 *)
| SelWaiting                               (* 431, blocked on read_var *)
| SelWoken                                 (* 431, reacquiring the mutex *)
| SelKillUsr1                              (* 435 *)
| SelSemWait                               (* 438 *)
| SelFuse1 (nfds_return : Z)               (* 441, 442 *)
| SelFuse2 (nfds_return : Z)               (* 445, 446 *)
| SelFuse3 (nfds_return : Z)               (* 448, 449 *)
| SelUnlock (nfds_return : Z)              (* 452, 454 *)
(* android_next_event *)
| NxtLock                                  (* 349 *)
| NxtCheck                                 (* 353-355 *)
| NxtWaiting                               (* 354, blocked on read_var *)
| NxtWoken                                 (* 354, reacquiring the mutex *)
| NxtLast                                  (* 358 *)
| NxtAssert (container : positive)         (* 359 *)
| NxtUnlink1 (container : positive)        (* 363 *)
| NxtUnlink2 (container : positive)        (* 364 *)
| NxtCopy (container : positive)           (* 365 *)
| NxtDec (container : positive) (e : android_event)    (* 366 *)
| NxtFree (container : positive) (e : android_event)   (* 369 *)
| NxtSignal (e : android_event)            (* 372 *)
| NxtUnlock (e : android_event)            (* 373 *)
(* android_pending *)
| PendLock                                 (* 337 *)
| PendRead                                 (* 338 *)
| PendUnlock (i : Z)                       (* 339, 341 *).

(** Program counter of the select thread, inside the loop of
    [android_run_select_thread]. *)
Inductive ppc :=
| PSigwait                                 (* 242 *)
| PLockSel                                 (* 246 *)
| PPselect                                 (* 247-252 *)
| PStoreRc (rc : Z)                        (* 253 *)
| PUnlockSel                               (* 254 *)
| PSemPost                                 (* 259 *)
| PLock                                    (* 261 *)
| PSetCompleted                            (* 262 *)
| PSignal                                  (* 263 *)
| PUnlock                                  (* 264 *).

(** Program counter of a thread inside [android_write_event (e)]. *)
Inductive wpc :=
| WMalloc (e : android_event)                            (* 381 *)
| WNullCheck (e : android_event) (c : option positive)   (* 383 *)
| WLock (e : android_event) (container : positive)       (* 386 *)
| WCheckFull (e : android_event) (container : positive)  (* 389-391 *)
| WWaiting (e : android_event) (container : positive)    (* 390, blocked *)
| WWoken (e : android_event) (container : positive)      (* 390, reacquiring *)
| WLink1 (e : android_event) (container : positive)      (* 393 *)
| WLink2 (e : android_event) (container : positive)      (* 394 *)
| WLink3 (e : android_event) (container : positive)      (* 395 *)
| WLink4 (e : android_event) (container : positive)      (* 396 *)
| WStore (e : android_event) (container : positive)      (* 397 *)
| WInc                                                   (* 398 *)
| WSignal                                                (* 399 *)
| WUnlock                                                (* 400 *).

(** ** Observable actions *)
Inductive mutex_id := QueueMutex | SelectMutex.

Inductive condvar := ReadVar | WriteVar.

Inductive signal := SIGUSR1 | SIGUSR2.

Inductive action :=
| ACall (f : call)
| AReturn (r : result)
| AEnter (e : android_event)         (* android_write_event entered *)
| ALeave                             (* android_write_event returned *)
| ALock (m : mutex_id)
| AUnlock (m : mutex_id)
| ACondWait (cv : condvar)           (* mutex released, thread blocked *)
| ACondWake (cv : condvar)           (* mutex reacquired after the wait *)
| ACondSignal (cv : condvar)
| AKill (sig : signal)
| ASigwait
| ASemPost
| ASemWait
| APselect (a : pselect_args) (rc : Z)
| AStoreRc (rc : Z)
| ASetCompleted (b : bool)
| AWriteArgs (a : pselect_args)
| AMalloc (r : option positive)
| AFree (p : positive)
| AInsert (e : android_event)        (* 397: the event is in the queue *)
| ARemove (e : android_event)        (* 365: the event is copied out *)
| AAssertFail.

(** ** State *)
Record state := State {
  (* whether eassert is compiled in (ENABLE_CHECKING); never changes *)
  checking : bool;
  (* struct android_event_queue event_queue *)
  mutex : option tid;
  select_mutex : option tid;
  num_events : Z;
  heap : gmap positive android_event_container;
  (* arguments and value of pselect *)
  android_pselect_args : pselect_args;
  android_pselect_rc : Z;
  android_pselect_completed : bool;
  android_pselect_sem : nat;
  (* SIGUSR2 pending for the select thread *)
  sigusr2_pending : bool;
  (* threads; a producer that is absent is outside android_write_event *)
  consumer : cpc;
  proxy : ppc;
  producers : gmap nat wpc;
  (* actions so far, most recent first *)
  trace : list (tid * action);
}.

(** Assignments to one field, and the addition of an action to the trace. *)
Definition with_mutex (v : option tid) (s : state) : state :=
  State (checking s) v (select_mutex s) (num_events s) (heap s)
    (android_pselect_args s) (android_pselect_rc s)
    (android_pselect_completed s) (android_pselect_sem s)
    (sigusr2_pending s) (consumer s) (proxy s) (producers s) (trace s).

Definition with_select_mutex (v : option tid) (s : state) : state :=
  State (checking s) (mutex s) v (num_events s) (heap s)
    (android_pselect_args s) (android_pselect_rc s)
    (android_pselect_completed s) (android_pselect_sem s)
    (sigusr2_pending s) (consumer s) (proxy s) (producers s) (trace s).

Definition with_num_events (v : Z) (s : state) : state :=
  State (checking s) (mutex s) (select_mutex s) v (heap s)
    (android_pselect_args s) (android_pselect_rc s)
    (android_pselect_completed s) (android_pselect_sem s)
    (sigusr2_pending s) (consumer s) (proxy s) (producers s) (trace s).

Definition with_heap (v : gmap positive android_event_container) (s : state)
  : state :=
  State (checking s) (mutex s) (select_mutex s) (num_events s) v
    (android_pselect_args s) (android_pselect_rc s)
    (android_pselect_completed s) (android_pselect_sem s)
    (sigusr2_pending s) (consumer s) (proxy s) (producers s) (trace s).

Definition with_args (v : pselect_args) (s : state) : state :=
  State (checking s) (mutex s) (select_mutex s) (num_events s) (heap s) v
    (android_pselect_rc s) (android_pselect_completed s)
    (android_pselect_sem s) (sigusr2_pending s) (consumer s) (proxy s)
    (producers s) (trace s).

Definition with_rc (v : Z) (s : state) : state :=
  State (checking s) (mutex s) (select_mutex s) (num_events s) (heap s)
    (android_pselect_args s) v (android_pselect_completed s)
    (android_pselect_sem s) (sigusr2_pending s) (consumer s) (proxy s)
    (producers s) (trace s).

Definition with_completed (v : bool) (s : state) : state :=
  State (checking s) (mutex s) (select_mutex s) (num_events s) (heap s)
    (android_pselect_args s) (android_pselect_rc s) v
    (android_pselect_sem s) (sigusr2_pending s) (consumer s) (proxy s)
    (producers s) (trace s).

Definition with_sem (v : nat) (s : state) : state :=
  State (checking s) (mutex s) (select_mutex s) (num_events s) (heap s)
    (android_pselect_args s) (android_pselect_rc s)
    (android_pselect_completed s) v (sigusr2_pending s) (consumer s)
    (proxy s) (producers s) (trace s).

Definition with_sigusr2 (v : bool) (s : state) : state :=
  State (checking s) (mutex s) (select_mutex s) (num_events s) (heap s)
    (android_pselect_args s) (android_pselect_rc s)
    (android_pselect_completed s) (android_pselect_sem s) v (consumer s)
    (proxy s) (producers s) (trace s).

Definition with_consumer (v : cpc) (s : state) : state :=
  State (checking s) (mutex s) (select_mutex s) (num_events s) (heap s)
    (android_pselect_args s) (android_pselect_rc s)
    (android_pselect_completed s) (android_pselect_sem s)
    (sigusr2_pending s) v (proxy s) (producers s) (trace s).

Definition with_proxy (v : ppc) (s : state) : state :=
  State (checking s) (mutex s) (select_mutex s) (num_events s) (heap s)
    (android_pselect_args s) (android_pselect_rc s)
    (android_pselect_completed s) (android_pselect_sem s)
    (sigusr2_pending s) (consumer s) v (producers s) (trace s).

Definition with_producers (v : gmap nat wpc) (s : state) : state :=
  State (checking s) (mutex s) (select_mutex s) (num_events s) (heap s)
    (android_pselect_args s) (android_pselect_rc s)
    (android_pselect_completed s) (android_pselect_sem s)
    (sigusr2_pending s) (consumer s) (proxy s) v (trace s).

Definition log (t : tid) (a : action) (s : state) : state :=
  State (checking s) (mutex s) (select_mutex s) (num_events s) (heap s)
    (android_pselect_args s) (android_pselect_rc s)
    (android_pselect_completed s) (android_pselect_sem s)
    (sigusr2_pending s) (consumer s) (proxy s) (producers s)
    ((t, a) :: trace s).

(** The actions of a run in the order in which they happened. *)
Definition history (s : state) : list (tid * action) := reverse (trace s).

(** Contents of an indeterminate object ([malloc] does not initialise, and
    the event of the sentinel is never written). *)
Definition indeterminate : android_event_container :=
  Container events_addr events_addr (xconfigure 0 0 0 0 0 0).

(** The state that [android_init_events] leaves (lines 284-330): both
    mutexes free, the semaphore at 0, the list empty (310, 311), the select
    thread started and about to wait for SIGUSR2.  [num_events] is static
    storage, so 0.  [chk] says whether the program was built with
    ENABLE_CHECKING. *)
Definition android_init_events (chk : bool) : state :=
  State chk None None 0
    {[ events_addr := Container events_addr events_addr
                        (xconfigure 0 0 0 0 0 0) ]}
    (PselectArgs 0 0 0 0 0 0) 0 false 0%nat false
    CIdle PSigwait ∅ [].

(** ** Primitives *)
(** Stores through a pointer: [p->next = q], [p->last = q], [p->event = e].
    There is no result when [p] is not allocated. *)
Definition set_next (p q : positive)
  (h : gmap positive android_event_container)
  : option (gmap positive android_event_container) :=
  match h !! p with
  | Some c => Some (<[p := Container q (last c) (event c)]> h)
  | None => None
  end.

Definition set_last (p q : positive)
  (h : gmap positive android_event_container)
  : option (gmap positive android_event_container) :=
  match h !! p with
  | Some c => Some (<[p := Container (next c) q (event c)]> h)
  | None => None
  end.

Definition set_event (p : positive) (e : android_event)
  (h : gmap positive android_event_container)
  : option (gmap positive android_event_container) :=
  match h !! p with
  | Some c => Some (<[p := Container (next c) (last c) e]> h)
  | None => None
  end.

(** [pthread_mutex_lock (&event_queue.mutex)] by thread [t]: no step while
    the mutex is held. *)
Definition lock_mutex (t : tid) (s : state) : option state :=
  match mutex s with
  | None => Some (log t (ALock QueueMutex) (with_mutex (Some t) s))
  | Some _ => None
  end.

(** [pthread_mutex_unlock (&event_queue.mutex)] by its owner. *)
Definition unlock_mutex (t : tid) (s : state) : option state :=
  if decide (mutex s = Some t)
  then Some (log t (AUnlock QueueMutex) (with_mutex None s))
  else None.

Definition lock_select_mutex (t : tid) (s : state) : option state :=
  match select_mutex s with
  | None => Some (log t (ALock SelectMutex) (with_select_mutex (Some t) s))
  | Some _ => None
  end.

Definition unlock_select_mutex (t : tid) (s : state) : option state :=
  if decide (select_mutex s = Some t)
  then Some (log t (AUnlock SelectMutex) (with_select_mutex None s))
  else None.

(** First half of [pthread_cond_wait (cv, &event_queue.mutex)]: the mutex
    is released and the thread blocks, in one atomic action. *)
Definition cond_wait_release (t : tid) (cv : condvar) (s : state)
  : option state :=
  if decide (mutex s = Some t)
  then Some (log t (ACondWait cv) (with_mutex None s))
  else None.

(** Second half: the thread was woken and returns from the wait once it has
    the mutex again. *)
Definition cond_wait_reacquire (t : tid) (cv : condvar) (s : state)
  : option state :=
  match mutex s with
  | None => Some (log t (ACondWake cv) (with_mutex (Some t) s))
  | Some _ => None
  end.

(** [pthread_cond_signal (&event_queue.read_var)].  Only the Emacs thread
    ever waits on [read_var]; if it does, it is woken. *)
Definition signal_read_var (s : state) : state :=
  match consumer s with
  | SelWaiting => with_consumer SelWoken s
  | NxtWaiting => with_consumer NxtWoken s
  | _ => s
  end.

Definition is_wwaiting (pc : wpc) : bool :=
  match pc with WWaiting _ _ => true | _ => false end.

Definition no_waiting_writer (m : gmap nat wpc) : bool :=
  forallb (fun x => negb (is_wwaiting (snd x))) (map_to_list m).

(** [pthread_cond_signal (&event_queue.write_var)]: wakes one of the
    producers blocked on [write_var], [w], if there is any. *)
Definition signal_write_var (w : option nat) (s : state) : option state :=
  match w with
  | Some n =>
      match producers s !! n with
      | Some (WWaiting e c) =>
          Some (with_producers (<[n := WWoken e c]> (producers s)) s)
      | _ => None
      end
  | None => if no_waiting_writer (producers s) then Some s else None
  end.

(** ** One step of each thread *)
Inductive label :=
| LCall (f : call)                        (* the Emacs thread calls f *)
| LWrite (n : nat) (e : android_event)    (* producer n calls
                                             android_write_event (e) *)
| LRun (t : tid)                          (* t executes its statement *)
| LMalloc (n : nat) (r : option positive) (* malloc of producer n returns r *)
| LPselect (rc : Z)                       (* pselect returns rc *)
| LSignalWrite (w : option nat)           (* line 372, waking w *)
| LSpurious (t : tid)                     (* spurious wakeup of t *).

Definition entry (f : call) : cpc :=
  match f with
  | CallSelect a => SelLock a
  | CallNextEvent => NxtLock
  | CallPending => PendLock
  end.

Definition call_step (f : call) (s : state) : option state :=
  match consumer s with
  | CIdle | CDone _ => Some (log Consumer (ACall f) (with_consumer (entry f) s))
  | _ => None
  end.

Definition return_ (r : result) (s : state) : state :=
  log Consumer (AReturn r) (with_consumer (CDone r) s).

(** [android_select], lines 404-455.  [nfds_return] is set to 0 at line
    418 and not used before line 441; it appears from there on. *)
Definition android_select (s : state) : option state :=
  match consumer s with
  | SelLock a =>
      with_consumer (SelCheck a) <$> lock_mutex Consumer s
  | SelCheck a =>
      if decide (num_events s = 0)
      then Some (with_consumer (SelClear a) s)
      else Some (with_consumer SelEarlyUnlock s)
  | SelEarlyUnlock =>
      return_ (RSelect 1) <$> unlock_mutex Consumer s
  | SelClear a =>
      Some (log Consumer (ASetCompleted false)
              (with_consumer (SelLockSel a) (with_completed false s)))
  | SelLockSel a =>
      with_consumer (SelWriteArgs a) <$> lock_select_mutex Consumer s
  | SelWriteArgs a =>
      Some (log Consumer (AWriteArgs a)
              (with_consumer SelUnlockSel (with_args a s)))
  | SelUnlockSel =>
      with_consumer SelKillUsr2 <$> unlock_select_mutex Consumer s
  | SelKillUsr2 =>
      Some (log Consumer (AKill SIGUSR2)
              (with_consumer SelCondWait (with_sigusr2 true s)))
  | SelCondWait =>
      with_consumer SelWaiting <$> cond_wait_release Consumer ReadVar s
  | SelWaiting => None
  | SelWoken =>
      with_consumer SelKillUsr1 <$> cond_wait_reacquire Consumer ReadVar s
  | SelKillUsr1 =>
      Some (log Consumer (AKill SIGUSR1) (with_consumer SelSemWait s))
  | SelSemWait =>
      match android_pselect_sem s with
      | O => None
      | S k =>
          Some (log Consumer ASemWait
                  (with_consumer (SelFuse1 0) (with_sem k s)))
      end
  | SelFuse1 n =>
      if decide (num_events s = 0)
      then Some (with_consumer (SelFuse2 n) s)
      else Some (with_consumer (SelFuse2 1) s)
  | SelFuse2 n =>
      if decide (0 <= android_pselect_rc s)
      then if in_int (n + android_pselect_rc s)
           then Some (with_consumer (SelFuse3 (n + android_pselect_rc s)) s)
           else None
      else Some (with_consumer (SelFuse3 n) s)
  | SelFuse3 n =>
      if decide (n = 0 ∧ android_pselect_rc s < 0)
      then Some (with_consumer (SelUnlock (android_pselect_rc s)) s)
      else Some (with_consumer (SelUnlock n) s)
  | SelUnlock n =>
      return_ (RSelect n) <$> unlock_mutex Consumer s
  | _ => None
  end.

(** [android_next_event], lines 345-374, except line 372. *)
Definition android_next_event (s : state) : option state :=
  match consumer s with
  | NxtLock =>
      with_consumer NxtCheck <$> lock_mutex Consumer s
  | NxtCheck =>
      if decide (num_events s = 0)
      then with_consumer NxtWaiting <$> cond_wait_release Consumer ReadVar s
      else Some (with_consumer NxtLast s)
  | NxtWaiting => None
  | NxtWoken =>
      with_consumer NxtLast <$> cond_wait_reacquire Consumer ReadVar s
  | NxtLast =>
      match heap s !! events_addr with
      | Some ev => Some (with_consumer (NxtAssert (last ev)) s)
      | None => None
      end
  | NxtAssert c =>
      if decide (c = events_addr)
      then if checking s
           then Some (log Consumer AAssertFail (with_consumer CAbort s))
           else Some (with_consumer (NxtUnlink1 c) s)
      else Some (with_consumer (NxtUnlink1 c) s)
  | NxtUnlink1 c =>
      match heap s !! c with
      | Some node =>
          (fun h => with_consumer (NxtUnlink2 c) (with_heap h s))
            <$> set_next (last node) (next node) (heap s)
      | None => None
      end
  | NxtUnlink2 c =>
      match heap s !! c with
      | Some node =>
          (fun h => with_consumer (NxtCopy c) (with_heap h s))
            <$> set_last (next node) (last node) (heap s)
      | None => None
      end
  | NxtCopy c =>
      match heap s !! c with
      | Some node =>
          Some (log Consumer (ARemove (event node))
                  (with_consumer (NxtDec c (event node)) s))
      | None => None
      end
  | NxtDec c e =>
      if in_int (num_events s - 1)
      then Some (with_consumer (NxtFree c e)
                   (with_num_events (num_events s - 1) s))
      else None
  | NxtFree c e =>
      if decide (c = events_addr) then None else
      match heap s !! c with
      | Some _ =>
          Some (log Consumer (AFree c)
                  (with_consumer (NxtSignal e)
                     (with_heap (delete c (heap s)) s)))
      | None => None
      end
  | NxtSignal e => None
  | NxtUnlock e =>
      return_ (RNextEvent e) <$> unlock_mutex Consumer s
  | _ => None
  end.

(** [android_pending], lines 333-342. *)
Definition android_pending (s : state) : option state :=
  match consumer s with
  | PendLock =>
      with_consumer PendRead <$> lock_mutex Consumer s
  | PendRead =>
      Some (with_consumer (PendUnlock (num_events s)) s)
  | PendUnlock i =>
      return_ (RPending i) <$> unlock_mutex Consumer s
  | _ => None
  end.

(** The function that the Emacs thread is in. *)
Inductive function := FSelect | FNextEvent | FPending.

Definition running (pc : cpc) : option function :=
  match pc with
  | CIdle | CDone _ | CAbort => None
  | SelLock _ | SelCheck _ | SelEarlyUnlock | SelClear _ | SelLockSel _
  | SelWriteArgs _ | SelUnlockSel | SelKillUsr2 | SelCondWait | SelWaiting
  | SelWoken | SelKillUsr1 | SelSemWait | SelFuse1 _ | SelFuse2 _
  | SelFuse3 _ | SelUnlock _ => Some FSelect
  | NxtLock | NxtCheck | NxtWaiting | NxtWoken | NxtLast | NxtAssert _
  | NxtUnlink1 _ | NxtUnlink2 _ | NxtCopy _ | NxtDec _ _ | NxtFree _ _
  | NxtSignal _ | NxtUnlock _ => Some FNextEvent
  | PendLock | PendRead | PendUnlock _ => Some FPending
  end.

Definition consumer_step (s : state) : option state :=
  match running (consumer s) with
  | Some FSelect => android_select s
  | Some FNextEvent => android_next_event s
  | Some FPending => android_pending s
  | None => None
  end.

(** Line 372 of [android_next_event]. *)
Definition consumer_signal_step (w : option nat) (s : state) : option state :=
  match consumer s with
  | NxtSignal e =>
      (fun s' => log Consumer (ACondSignal WriteVar)
                   (with_consumer (NxtUnlock e) s'))
        <$> signal_write_var w s
  | _ => None
  end.

(** The loop of [android_run_select_thread], lines 238-265, except the call
    of pselect.  The thread starts in [sigwait]: the signal masks that it
    sets up first (220-236) only matter through what they make of SIGUSR1
    and SIGUSR2 here. *)
Definition android_run_select_thread (s : state) : option state :=
  match proxy s with
  | PSigwait =>
      if sigusr2_pending s
      then Some (log Proxy ASigwait
                   (with_proxy PLockSel (with_sigusr2 false s)))
      else None
  | PLockSel =>
      with_proxy PPselect <$> lock_select_mutex Proxy s
  | PPselect => None
  | PStoreRc rc =>
      Some (log Proxy (AStoreRc rc) (with_proxy PUnlockSel (with_rc rc s)))
  | PUnlockSel =>
      with_proxy PSemPost <$> unlock_select_mutex Proxy s
  | PSemPost =>
      Some (log Proxy ASemPost
              (with_proxy PLock (with_sem (S (android_pselect_sem s)) s)))
  | PLock =>
      with_proxy PSetCompleted <$> lock_mutex Proxy s
  | PSetCompleted =>
      Some (log Proxy (ASetCompleted true)
              (with_proxy PSignal (with_completed true s)))
  | PSignal =>
      Some (log Proxy (ACondSignal ReadVar)
              (with_proxy PUnlock (signal_read_var s)))
  | PUnlock =>
      with_proxy PSigwait <$> unlock_mutex Proxy s
  end.

(** Lines 247-252: pselect is called with the stored arguments and returns
    [rc], an [int].  When and with what it returns is up to the platform
    (descriptors, the timeout, SIGUSR1 or another failure). *)
Definition pselect_step (rc : Z) (s : state) : option state :=
  match proxy s with
  | PPselect =>
      if in_int rc
      then Some (log Proxy (APselect (android_pselect_args s) rc)
                   (with_proxy (PStoreRc rc) s))
      else None
  | _ => None
  end.

Definition set_producer (n : nat) (pc : wpc) (s : state) : state :=
  with_producers (<[n := pc]> (producers s)) s.

Definition leave (n : nat) (s : state) : state :=
  log (Producer n) ALeave (with_producers (delete n (producers s)) s).

(** Line 381: [malloc] returns NULL or a block that was not allocated. *)
Definition malloc_step (n : nat) (r : option positive) (s : state)
  : option state :=
  match producers s !! n with
  | Some (WMalloc e) =>
      match r with
      | None =>
          Some (log (Producer n) (AMalloc None)
                  (set_producer n (WNullCheck e None) s))
      | Some p =>
          match heap s !! p with
          | None =>
              Some (log (Producer n) (AMalloc (Some p))
                      (set_producer n (WNullCheck e (Some p))
                         (with_heap (<[p := indeterminate]> (heap s)) s)))
          | Some _ => None
          end
      end
  | _ => None
  end.

(** [android_write_event], lines 376-401, except line 381. *)
Definition android_write_event (n : nat) (s : state) : option state :=
  match producers s !! n with
  | None => None
  | Some pc =>
      match pc with
      | WMalloc e => None
      | WNullCheck e None => Some (leave n s)
      | WNullCheck e (Some c) => Some (set_producer n (WLock e c) s)
      | WLock e c =>
          set_producer n (WCheckFull e c) <$> lock_mutex (Producer n) s
      | WCheckFull e c =>
          if decide (1024 <= num_events s)
          then set_producer n (WWaiting e c)
                 <$> cond_wait_release (Producer n) WriteVar s
          else Some (set_producer n (WLink1 e c) s)
      | WWaiting e c => None
      | WWoken e c =>
          set_producer n (WLink1 e c)
            <$> cond_wait_reacquire (Producer n) WriteVar s
      | WLink1 e c =>
          match heap s !! events_addr with
          | Some ev =>
              (fun h => set_producer n (WLink2 e c) (with_heap h s))
                <$> set_next c (next ev) (heap s)
          | None => None
          end
      | WLink2 e c =>
          (fun h => set_producer n (WLink3 e c) (with_heap h s))
            <$> set_last c events_addr (heap s)
      | WLink3 e c =>
          match heap s !! c with
          | Some node =>
              (fun h => set_producer n (WLink4 e c) (with_heap h s))
                <$> set_last (next node) c (heap s)
          | None => None
          end
      | WLink4 e c =>
          match heap s !! c with
          | Some node =>
              (fun h => set_producer n (WStore e c) (with_heap h s))
                <$> set_next (last node) c (heap s)
          | None => None
          end
      | WStore e c =>
          (fun h => log (Producer n) (AInsert e)
                      (set_producer n WInc (with_heap h s)))
            <$> set_event c e (heap s)
      | WInc =>
          if in_int (num_events s + 1)
          then Some (set_producer n WSignal
                       (with_num_events (num_events s + 1) s))
          else None
      | WSignal =>
          Some (log (Producer n) (ACondSignal ReadVar)
                  (set_producer n WUnlock (signal_read_var s)))
      | WUnlock =>
          leave n <$> unlock_mutex (Producer n) s
      end
  end.

Definition write_call_step (n : nat) (e : android_event) (s : state)
  : option state :=
  match producers s !! n with
  | None => Some (log (Producer n) (AEnter e) (set_producer n (WMalloc e) s))
  | Some _ => None
  end.

(** A thread blocked in [pthread_cond_wait] may wake without a signal. *)
Definition spurious_step (t : tid) (s : state) : option state :=
  match t with
  | Consumer =>
      match consumer s with
      | SelWaiting => Some (with_consumer SelWoken s)
      | NxtWaiting => Some (with_consumer NxtWoken s)
      | _ => None
      end
  | Proxy => None
  | Producer n =>
      match producers s !! n with
      | Some (WWaiting e c) => Some (set_producer n (WWoken e c) s)
      | _ => None
      end
  end.

(** ** The transition system *)
Definition aborted (s : state) : bool :=
  match consumer s with CAbort => true | _ => false end.

Definition step (l : label) (s : state) : option state :=
  if aborted s then None else
  match l with
  | LCall f => call_step f s
  | LWrite n e => write_call_step n e s
  | LRun Consumer => consumer_step s
  | LRun Proxy => android_run_select_thread s
  | LRun (Producer n) => android_write_event n s
  | LMalloc n r => malloc_step n r s
  | LPselect rc => pselect_step rc s
  | LSignalWrite w => consumer_signal_step w s
  | LSpurious t => spurious_step t s
  end.

Fixpoint steps (ls : list label) (s : state) : option state :=
  match ls with
  | [] => Some s
  | l :: ls' =>
      match step l s with
      | Some s' => steps ls' s'
      | None => None
      end
  end.

Definition reachable (s : state) : Prop :=
  ∃ chk ls, steps ls (android_init_events chk) = Some s.

(** A run in which [pthread_cond_wait] only returns after a signal. *)
Definition is_spurious (l : label) : bool :=
  match l with LSpurious _ => true | _ => false end.

Definition no_spurious (ls : list label) : bool :=
  forallb (fun l => negb (is_spurious l)) ls.

(** ** Lines 440-449 as a function

    The value that [android_select] computes from the number of events and
    the value of pselect once it has passed the semaphore. *)
Definition fuse_events (count : Z) : Z :=
  if decide (count = 0) then 0 else 1.

Definition fuse_rc (count rc : Z) : Z :=
  if decide (0 <= rc) then fuse_events count + rc else fuse_events count.

Definition fuse (count rc : Z) : Z :=
  if decide (fuse_rc count rc = 0 ∧ rc < 0) then rc else fuse_rc count rc.

(** * Invariants

    What holds in every reachable state, whatever the interleaving.  The
    definitions are here, the proofs in the second half of the file. *)

(** The program counter of the Emacs thread after a signal on [read_var]:
    a waiting thread is woken, any other is where it was. *)
Definition woken (pc : cpc) : cpc :=
  match pc with
  | SelWaiting => SelWoken
  | NxtWaiting => NxtWoken
  | _ => pc
  end.

(** ** The queue mutex

    A thread is at a statement between a lock and an unlock of
    [event_queue.mutex] exactly when it owns the mutex. *)
Definition cpc_holds (pc : cpc) : bool :=
  match pc with
  | CIdle | CDone _ | SelLock _ | SelWaiting | SelWoken
  | NxtLock | NxtWaiting | NxtWoken | PendLock => false
  | _ => true
  end.

Definition ppc_holds (pc : ppc) : bool :=
  match pc with
  | PSetCompleted | PSignal | PUnlock => true
  | _ => false
  end.

Definition wpc_holds (pc : wpc) : bool :=
  match pc with
  | WMalloc _ | WNullCheck _ _ | WLock _ _ | WWaiting _ _ | WWoken _ _ => false
  | _ => true
  end.

Definition holder (s : state) (t : tid) : bool :=
  match t with
  | Consumer => cpc_holds (consumer s)
  | Proxy => ppc_holds (proxy s)
  | Producer n =>
      match producers s !! n with
      | Some pc => wpc_holds pc
      | None => false
      end
  end.

Definition lock_inv (s : state) : Prop :=
  ∀ t, holder s t = true ↔ mutex s = Some t.

(** ** The handshake with the select thread

    SIGUSR2, the select thread between [sigwait] and [sem_post], and the
    semaphore hold one token while [android_select] is between line 430 and
    line 438, and none otherwise. *)
Definition carm (pc : cpc) : nat :=
  match pc with
  | SelCondWait | SelWaiting | SelWoken | SelKillUsr1 | SelSemWait => 1
  | _ => 0
  end.

Definition pbusy (pc : ppc) : nat :=
  match pc with
  | PLockSel | PPselect | PStoreRc _ | PUnlockSel | PSemPost => 1
  | _ => 0
  end.

Definition pending_token (s : state) : nat :=
  if sigusr2_pending s then 1 else 0.

Definition sync_inv (s : state) : Prop :=
  (pending_token s + pbusy (proxy s) + android_pselect_sem s
   = carm (consumer s))%nat.

(** ** The result under construction

    While [android_select] computes its result it owns the queue mutex and
    the select thread is past [sem_post], so neither [num_events] nor
    [android_pselect_rc] changes under it. *)
Definition fuse_ok (pc : cpc) (count rc : Z) : Prop :=
  match pc with
  | SelEarlyUnlock => count ≠ 0
  | SelFuse1 n => n = 0
  | SelFuse2 n => n = fuse_events count
  | SelFuse3 n => n = fuse_rc count rc
  | SelUnlock n => n = fuse count rc
  | _ => True
  end.

Definition fuse_inv (s : state) : Prop :=
  fuse_ok (consumer s) (num_events s) (android_pselect_rc s).

(** ** The order of actions in the select thread *)
Definition actions_of (t : tid) (h : list (tid * action)) : list action :=
  omap (fun x => if decide (x.1 = t) then Some x.2 else None) h.

(** One turn of the loop of [android_run_select_thread], lines 242-264. *)
Definition iteration (a : pselect_args) (rc : Z) : list action :=
  [ASigwait; ALock SelectMutex; APselect a rc; AStoreRc rc;
   AUnlock SelectMutex; ASemPost; ALock QueueMutex; ASetCompleted true;
   ACondSignal ReadVar; AUnlock QueueMutex].

Definition iterations (done : list (pselect_args * Z)) : list action :=
  flat_map (fun x => iteration x.1 x.2) done.

Definition pindex (pc : ppc) : nat :=
  match pc with
  | PSigwait => 0
  | PLockSel => 1
  | PPselect => 2
  | PStoreRc _ => 3
  | PUnlockSel => 4
  | PSemPost => 5
  | PLock => 6
  | PSetCompleted => 7
  | PSignal => 8
  | PUnlock => 9
  end.

Definition proxy_inv (s : state) : Prop :=
  ∃ done a rc,
    actions_of Proxy (history s)
    = iterations done ++ take (pindex (proxy s)) (iteration a rc)
    ∧ ∀ rc', proxy s = PStoreRc rc' → rc = rc'.

(** ** The circular list

    The list is read through two fields.  Following [last] from the
    sentinel visits the containers from the oldest to the newest and comes
    back to the sentinel; the [next] field of each container, and of the
    sentinel, points the other way. *)
Definition hlast (h : gmap positive android_event_container) (p : positive)
  : option positive := last <$> h !! p.

Definition hnext (h : gmap positive android_event_container) (p : positive)
  : option positive := next <$> h !! p.

Definition hevent (h : gmap positive android_event_container) (p : positive)
  : option android_event := event <$> h !! p.

(** [lchain h p xs q]: from [p], the [last] fields lead through [xs] to [q]. *)
Fixpoint lchain (h : gmap positive android_event_container)
  (p : positive) (xs : list positive) (q : positive) : Prop :=
  match xs with
  | [] => hlast h p = Some q
  | x :: r => hlast h p = Some x ∧ lchain h x r q
  end.

(** [nchain h p xs q]: the [next] field of every node of [xs], and of [q]
    after them, is the node before it, [p] being before the first. *)
Fixpoint nchain (h : gmap positive android_event_container)
  (p : positive) (xs : list positive) (q : positive) : Prop :=
  match xs with
  | [] => hnext h q = Some p
  | x :: r => hnext h x = Some p ∧ nchain h x r q
  end.

Fixpoint tail_of (p : positive) (xs : list positive) : positive :=
  match xs with
  | [] => p
  | x :: r => tail_of x r
  end.

Definition head_of (xs : list positive) (q : positive) : positive :=
  match xs with
  | [] => q
  | x :: _ => x
  end.

(** [l] is the queue, oldest container first. *)
Definition is_queue (h : gmap positive android_event_container)
  (l : list positive) : Prop :=
  lchain h events_addr l events_addr ∧ nchain h events_addr l events_addr.

Definition events_of (h : gmap positive android_event_container)
  (l : list positive) : list android_event :=
  omap (hevent h) l.

(** ** The queue invariant *)
(** Events stored into the queue (line 397) and copied out of it (line 365),
    in the order in which that happened. *)
Definition inserted (h : list (tid * action)) : list android_event :=
  omap (fun x => match x.2 with AInsert e => Some e | _ => None end) h.

Definition removed (h : list (tid * action)) : list android_event :=
  omap (fun x => match x.2 with ARemove e => Some e | _ => None end) h.

(** How far the owner of the mutex is into an insertion or a removal. *)
Inductive phase :=
| Stable
| Linking1 (c : positive)     (* before 394 *)
| Linking2 (c : positive)     (* before 395 *)
| Linking3 (c : positive)     (* before 396 *)
| Linked (c : positive)       (* before 397 *)
| Counting                    (* before 398 *)
| Asserting (c : positive)    (* before 359 *)
| Unlinking1 (c : positive)   (* before 363 *)
| Unlinking2 (c : positive)   (* before 364 *)
| Copying (c : positive)      (* before 365 *)
| Decrementing (c : positive) (* before 366 *)
| Doomed                      (* past 359 with the sentinel, before 365 *)
| DoomedCopied (e : android_event)   (* the same, past 365 *).

Definition cphase (pc : cpc) : phase :=
  match pc with
  | NxtAssert c => Asserting c
  | NxtUnlink1 c =>
      if decide (c = events_addr) then Doomed else Unlinking1 c
  | NxtUnlink2 c =>
      if decide (c = events_addr) then Doomed else Unlinking2 c
  | NxtCopy c =>
      if decide (c = events_addr) then Doomed else Copying c
  | NxtDec c e =>
      if decide (c = events_addr) then DoomedCopied e else Decrementing c
  | NxtFree c e =>
      if decide (c = events_addr) then DoomedCopied e else Stable
  | _ => Stable
  end.

Definition wphase (pc : wpc) : phase :=
  match pc with
  | WLink2 _ c => Linking1 c
  | WLink3 _ c => Linking2 c
  | WLink4 _ c => Linking3 c
  | WStore _ c => Linked c
  | WInc => Counting
  | _ => Stable
  end.

Definition phase_of (s : state) : phase :=
  match mutex s with
  | Some Consumer => cphase (consumer s)
  | Some (Producer n) =>
      match producers s !! n with
      | Some pc => wphase pc
      | None => Stable
      end
  | _ => Stable
  end.

(** The container that a thread has in hand: allocated, and not (or, at
    line 397, not yet for the purposes of the count) part of the queue. *)
Definition own_c (pc : cpc) : option positive :=
  match pc with
  | NxtUnlink2 c | NxtCopy c | NxtDec c _ | NxtFree c _ =>
      if decide (c = events_addr) then None else Some c
  | _ => None
  end.

Definition own_w (pc : wpc) : option positive :=
  match pc with
  | WNullCheck _ c => c
  | WLock _ c | WCheckFull _ c | WWaiting _ c | WWoken _ c
  | WLink1 _ c | WLink2 _ c | WLink3 _ c | WLink4 _ c | WStore _ c => Some c
  | _ => None
  end.

Definition owned (s : state) (t : tid) : option positive :=
  match t with
  | Consumer => own_c (consumer s)
  | Proxy => None
  | Producer n =>
      match producers s !! n with
      | Some pc => own_w pc
      | None => None
      end
  end.

(** The shape of the list in each phase, for [l] the queue without the
    container in hand. *)
Definition links (ph : phase) (h : gmap positive android_event_container)
  (l : list positive) : Prop :=
  match ph with
  | Stable | Counting | Decrementing _ => is_queue h l
  | Copying c => is_queue h l ∧ is_Some (h !! c)
  | Linking1 c => is_queue h l ∧ hnext h c = Some (tail_of events_addr l)
  | Linking2 c =>
      is_queue h l ∧ hnext h c = Some (tail_of events_addr l)
      ∧ hlast h c = Some events_addr
  | Linking3 c =>
      lchain h events_addr (l ++ [c]) events_addr
      ∧ nchain h events_addr l events_addr
      ∧ hnext h c = Some (tail_of events_addr l)
  | Linked c => is_queue h (l ++ [c])
  | Asserting c => is_queue h l ∧ c = head_of l events_addr
  | Unlinking1 c => is_queue h l ∧ head_of l events_addr = c ∧ l ≠ []
  | Unlinking2 c =>
      lchain h events_addr (c :: l) events_addr
      ∧ nchain h events_addr l events_addr
      ∧ hnext h c = Some events_addr
  | Doomed | DoomedCopied _ => is_queue h l ∧ l = []
  end.

Definition counted (ph : phase) (n : Z) (l : list positive) : Prop :=
  match ph with
  | Counting => n + 1 = Z.of_nat (length l)
  | Unlinking2 _ | Copying _ | Decrementing _ => n = Z.of_nat (length l) + 1
  | Doomed | DoomedCopied _ => True
  | _ => n = Z.of_nat (length l)
  end.

(** The containers whose events are in the queue and not yet copied out. *)
Definition queued (ph : phase) (l : list positive) : list positive :=
  match ph with
  | Unlinking2 c | Copying c => c :: l
  | _ => l
  end.

(** The events put in are the events taken out followed by the events that
    wait.  Without ENABLE_CHECKING line 365 can copy the event of the
    sentinel, which nobody put in. *)
Definition fifo (ph : phase) (ins rem pend : list android_event) : Prop :=
  match ph with
  | DoomedCopied e => ins ++ [e] = rem
  | _ => ins = rem ++ pend
  end.

Definition allocated (h : gmap positive android_event_container)
  (l : list positive) : Prop :=
  NoDup (events_addr :: l) ∧ ∀ p, p ∈ events_addr :: l → is_Some (h !! p).

Definition own_ok (s : state) (l : list positive) : Prop :=
  (∀ t c, owned s t = Some c →
          is_Some (heap s !! c) ∧ c ∉ events_addr :: l)
  ∧ (∀ t1 t2 c, owned s t1 = Some c → owned s t2 = Some c → t1 = t2).

Definition queue_ok (s : state) (l : list positive) : Prop :=
  allocated (heap s) l
  ∧ own_ok s l
  ∧ links (phase_of s) (heap s) l
  ∧ counted (phase_of s) (num_events s) l
  ∧ fifo (phase_of s) (inserted (history s)) (removed (history s))
      (events_of (heap s) (queued (phase_of s) l)).

Definition queue_inv (s : state) : Prop := ∃ l, queue_ok s l.

(** ** What [android_next_event] returns

    The events copied out of the queue are the events returned, in the
    same order, with at most one still on its way out. *)
Definition returned (h : list (tid * action)) : list android_event :=
  omap (fun x => match x.2 with
                 | AReturn (RNextEvent e) => Some e
                 | _ => None
                 end) h.

Definition in_hand (pc : cpc) : list android_event :=
  match pc with
  | NxtDec _ e | NxtFree _ e | NxtSignal e | NxtUnlock e => [e]
  | _ => []
  end.

Definition return_inv (s : state) : Prop :=
  removed (history s) = returned (history s) ++ in_hand (consumer s).

(** ** All invariants together *)
Definition inv (s : state) : Prop :=
  lock_inv s ∧ sync_inv s ∧ fuse_inv s ∧ proxy_inv s ∧ queue_inv s
  ∧ return_inv s.

(** ** Reading the queue

    The containers of the circular list, found the way
    [android_next_event] finds the first of them: from
    [event_queue.events.last] along the [last] fields, up to the sentinel. *)
Fixpoint walk (fuel : nat) (h : gmap positive android_event_container)
  (p : positive) : list positive :=
  match fuel with
  | O => []
  | S fuel' =>
      if decide (p = events_addr) then []
      else match h !! p with
           | Some c => p :: walk fuel' h (last c)
           | None => []
           end
  end.

Definition queue_nodes (s : state) : list positive :=
  match heap s !! events_addr with
  | Some ev => walk (size (heap s)) (heap s) (last ev)
  | None => []
  end.

(** The events waiting in the queue, oldest first. *)
Definition pending_events (s : state) : list android_event :=
  events_of (heap s) (queue_nodes s).

(** ** [android_select] with events in the queue

    What happens between a call of [android_select] made while
    [num_events] is positive and its return, whatever the other threads do
    in the meantime. *)
Definition is_call (l : label) : bool :=
  match l with LCall _ => true | _ => false end.

Definition no_calls (ls : list label) : bool :=
  forallb (fun l => negb (is_call l)) ls.

Definition is_pselect (a : action) : bool :=
  match a with APselect _ _ => true | _ => false end.

(** Where the Emacs thread can be, and what it has done since the call. *)
Inductive early_at (a : pselect_args) : cpc → list action → Prop :=
| early_lock :
    early_at a (SelLock a) [ACall (CallSelect a)]
| early_check :
    early_at a (SelCheck a) [ACall (CallSelect a); ALock QueueMutex]
| early_unlock :
    early_at a SelEarlyUnlock [ACall (CallSelect a); ALock QueueMutex]
| early_done :
    early_at a (CDone (RSelect 1))
      [ACall (CallSelect a); ALock QueueMutex; AUnlock QueueMutex;
       AReturn (RSelect 1)].

Definition early_frag (a : pselect_args) (s0 s : state) : Prop :=
  0 < num_events s
  ∧ ∃ t, history s = history s0 ++ t
         ∧ early_at a (consumer s) (actions_of Consumer t)
         ∧ Forall (fun x => is_pselect x.2 = false) t.

(** * What a step leaves alone *)

(** What the early return of [android_select] has no business changing. *)
Definition select_untouched (s1 s2 : state) : Prop :=
  android_pselect_args s2 = android_pselect_args s1
  ∧ android_pselect_completed s2 = android_pselect_completed s1
  ∧ android_pselect_rc s2 = android_pselect_rc s1
  ∧ android_pselect_sem s2 = android_pselect_sem s1
  ∧ sigusr2_pending s2 = sigusr2_pending s1
  ∧ select_mutex s2 = select_mutex s1
  ∧ heap s2 = heap s1
  ∧ num_events s2 = num_events s1
  ∧ proxy s2 = proxy s1
  ∧ producers s2 = producers s1.

(** Everything but the producers and the trace. *)
Definition shared_untouched (s1 s2 : state) : Prop :=
  mutex s2 = mutex s1
  ∧ select_mutex s2 = select_mutex s1
  ∧ num_events s2 = num_events s1
  ∧ heap s2 = heap s1
  ∧ android_pselect_args s2 = android_pselect_args s1
  ∧ android_pselect_rc s2 = android_pselect_rc s1
  ∧ android_pselect_completed s2 = android_pselect_completed s1
  ∧ android_pselect_sem s2 = android_pselect_sem s1
  ∧ sigusr2_pending s2 = sigusr2_pending s1
  ∧ consumer s2 = consumer s1
  ∧ proxy s2 = proxy s1.

(** * Runs used as examples *)

Definition A : android_event := xkey ANDROID_KEY_PRESS 1 100 0 29.

Definition B : android_event := xkey ANDROID_KEY_RELEASE 1 101 0 29.

Definition no_fds : pselect_args := PselectArgs 0 0 0 0 0 0.

(** Producer [n] runs [android_write_event (e)] from the call to the return
    without waiting, [malloc] returning [p]. *)
Definition write_event (n : nat) (e : android_event) (p : positive)
  : list label :=
  [LWrite n e; LMalloc n (Some p)] ++ replicate 11 (LRun (Producer n)).

(** The Emacs thread runs [android_next_event] on a queue that is not
    empty, waking [w] at line 372. *)
Definition next_event (w : option nat) : list label :=
  LCall CallNextEvent :: replicate 9 (LRun Consumer)
  ++ [LSignalWrite w; LRun Consumer].

(** The Emacs thread runs [android_select] on a queue that is not empty. *)
Definition select_early (a : pselect_args) : list label :=
  LCall (CallSelect a) :: replicate 3 (LRun Consumer).

(** The same, up to the statement that unlocks and returns. *)
Definition select_unlocking (a : pselect_args) : list label :=
  LCall (CallSelect a) :: replicate 2 (LRun Consumer).


(** The state after a run from the initial state, and the initial state if
    the run does not exist. *)
Definition exec (chk : bool) (ls : list label) : state :=
  match steps ls (android_init_events chk) with
  | Some s => s
  | None => android_init_events chk
  end.

Definition runs (chk : bool) (ls : list label) : bool :=
  match steps ls (android_init_events chk) with
  | Some _ => true
  | None => false
  end.

(** Two producers enqueue an event each. *)
Definition two_events : list label :=
  write_event 0 A 2 ++ write_event 1 B 3.

(** States of these runs: with [A] and [B] in the queue; then with
    [android_select] about to unlock and return; then with [android_select]
    returned; or, instead, with [A] taken out by [android_next_event]. *)
Definition two_queued : state := exec true two_events.

Definition early_returning : state :=
  exec true (two_events ++ select_unlocking no_fds).

Definition early_returned : state :=
  exec true (two_events ++ select_early no_fds).

Definition one_taken : state := exec true (two_events ++ next_event None).



(** Producer 0 has called [android_write_event (A)] and is about to call
    [malloc]. *)
Definition write_entered : state := exec true [LWrite 0 A].

(** * Two runs that the code allows *)

(** ** More than 1024 events

    1024 events are queued.  Producer 1 finds the queue full and waits on
    [write_var] (389-391).  The Emacs thread takes one event out and signals
    [write_var], which wakes producer 1; before producer 1 has the mutex
    again, producer 2 locks it, finds 1023 events and adds one.  Producer 1
    then returns from [pthread_cond_wait] and, line 389 being an [if],
    inserts without looking at [num_events] again. *)
Definition fill_queue : list label :=
  flat_map (fun i => write_event 0 A (Pos.of_nat (2 + i))) (seq 0 1024).

Definition overfull : list label :=
  fill_queue
  ++ [LWrite 1 B; LMalloc 1 (Some 1026%positive)]
  ++ replicate 3 (LRun (Producer 1))
  ++ next_event (Some 1%nat)
  ++ write_event 2 B 1027
  ++ replicate 9 (LRun (Producer 1)).

(** ** The assertion of [android_next_event]

    [android_select] is called on an empty queue and waits.  A producer
    adds an event, which wakes the Emacs thread; it interrupts pselect,
    passes the semaphore as soon as the select thread has posted it, and
    returns 1.  It takes the event out with [android_next_event] and calls
    [android_next_event] again, which waits on [read_var] because the queue
    is empty (353-355).  Only now does the select thread get the queue
    mutex and signal [read_var] (261-263).  The Emacs thread wakes and,
    line 353 being an [if], takes [event_queue.events.last], which is the
    sentinel. *)
Definition stale_signal : list label :=
  (* android_select, up to the wait on read_var *)
  LCall (CallSelect no_fds) :: replicate 8 (LRun Consumer)
  (* the select thread enters pselect *)
  ++ replicate 2 (LRun Proxy)
  (* an event arrives *)
  ++ write_event 0 A 2
  (* the Emacs thread wakes, sends SIGUSR1 and waits for the semaphore *)
  ++ replicate 2 (LRun Consumer)
  (* pselect is interrupted; its value is stored, the semaphore posted *)
  ++ [LPselect (-1)] ++ replicate 3 (LRun Proxy)
  (* android_select returns 1 *)
  ++ replicate 5 (LRun Consumer)
  (* the event is taken out *)
  ++ next_event None
  (* android_next_event on the empty queue waits *)
  ++ LCall CallNextEvent :: replicate 2 (LRun Consumer)
  (* the select thread locks the queue mutex, signals, unlocks *)
  ++ replicate 4 (LRun Proxy)
  (* the Emacs thread wakes and reaches the assertion *)
  ++ replicate 3 (LRun Consumer).

(** * Proofs of the invariants *)

(** ** Case analysis on a step *)
Ltac step_inv H :=
  unfold step in H;
  match type of H with
  | (if aborted ?s then _ else _) = _ =>
      let Ha := fresh "Hab" in
      destruct (aborted s) eqn:Ha; [discriminate H|]
  end;
  try match type of H with
  | match ?l with _ => _ end = _ =>
      destruct l as [[a| |]|n e|[| |n]|n r|rc|w|[| |n]]
  end;
  unfold call_step, write_call_step, consumer_step, running, android_select,
    android_next_event, android_pending, android_run_select_thread,
    android_write_event, malloc_step, pselect_step, consumer_signal_step,
    spurious_step, signal_write_var, lock_mutex, unlock_mutex,
    lock_select_mutex, unlock_select_mutex, cond_wait_release,
    cond_wait_reacquire, return_, leave in H;
  repeat case_match; simplify_option_eq;
  repeat match goal with
  | H : left _ = left _ |- _ => clear H
  | H : right _ = right _ |- _ => clear H
  end.

Ltac fields :=
  cbn [checking mutex select_mutex num_events heap android_pselect_args
       android_pselect_rc android_pselect_completed android_pselect_sem
       sigusr2_pending consumer proxy producers trace
       log with_mutex with_select_mutex with_num_events with_heap with_args
       with_rc with_completed with_sem with_sigusr2 with_consumer with_proxy
       with_producers set_producer entry] in *.

Ltac pcs :=
  repeat match goal with
  | H : consumer ?s = _ |- _ => rewrite H in *; clear H
  | H : proxy ?s = _ |- _ => rewrite H in *; clear H
  | H : producers ?s !! _ = _ |- _ => rewrite H in *
  | H : mutex ?s = _ |- _ => rewrite H in *; clear H
  end.

Ltac lookups :=
  rewrite ?lookup_insert_eq, ?lookup_delete_eq;
  try match goal with
  | |- context [<[?n := _]> _ !! ?m] =>
      destruct (decide (n = m)) as [->|];
      [rewrite lookup_insert_eq | rewrite lookup_insert_ne by done]
  | |- context [delete ?n _ !! ?m] =>
      destruct (decide (n = m)) as [->|];
      [rewrite lookup_delete_eq | rewrite lookup_delete_ne by done]
  end.

(** ** What [pthread_cond_signal (read_var)] leaves alone *)
Lemma signal_read_var_mutex s : mutex (signal_read_var s) = mutex s.
Proof. unfold signal_read_var. by destruct (consumer s). Qed.

Lemma signal_read_var_select_mutex s :
  select_mutex (signal_read_var s) = select_mutex s.
Proof. unfold signal_read_var. by destruct (consumer s). Qed.

Lemma signal_read_var_num_events s :
  num_events (signal_read_var s) = num_events s.
Proof. unfold signal_read_var. by destruct (consumer s). Qed.

Lemma signal_read_var_heap s : heap (signal_read_var s) = heap s.
Proof. unfold signal_read_var. by destruct (consumer s). Qed.

Lemma signal_read_var_args s :
  android_pselect_args (signal_read_var s) = android_pselect_args s.
Proof. unfold signal_read_var. by destruct (consumer s). Qed.

Lemma signal_read_var_rc s :
  android_pselect_rc (signal_read_var s) = android_pselect_rc s.
Proof. unfold signal_read_var. by destruct (consumer s). Qed.

Lemma signal_read_var_completed s :
  android_pselect_completed (signal_read_var s) = android_pselect_completed s.
Proof. unfold signal_read_var. by destruct (consumer s). Qed.

Lemma signal_read_var_sem s :
  android_pselect_sem (signal_read_var s) = android_pselect_sem s.
Proof. unfold signal_read_var. by destruct (consumer s). Qed.

Lemma signal_read_var_sigusr2 s :
  sigusr2_pending (signal_read_var s) = sigusr2_pending s.
Proof. unfold signal_read_var. by destruct (consumer s). Qed.

Lemma signal_read_var_proxy s : proxy (signal_read_var s) = proxy s.
Proof. unfold signal_read_var. by destruct (consumer s). Qed.

Lemma signal_read_var_producers s :
  producers (signal_read_var s) = producers s.
Proof. unfold signal_read_var. by destruct (consumer s). Qed.

Lemma signal_read_var_trace s : trace (signal_read_var s) = trace s.
Proof. unfold signal_read_var. by destruct (consumer s). Qed.

Lemma signal_read_var_consumer s :
  consumer (signal_read_var s) = woken (consumer s).
Proof.
  unfold signal_read_var. destruct (consumer s) eqn:E; simpl; by rewrite ?E.
Qed.

Ltac signals :=
  rewrite ?signal_read_var_mutex, ?signal_read_var_select_mutex,
    ?signal_read_var_num_events, ?signal_read_var_heap,
    ?signal_read_var_args, ?signal_read_var_rc,
    ?signal_read_var_completed, ?signal_read_var_sem,
    ?signal_read_var_sigusr2, ?signal_read_var_proxy,
    ?signal_read_var_producers, ?signal_read_var_trace,
    ?signal_read_var_consumer in *.

(** ** The queue mutex *)
Lemma woken_holds pc : cpc_holds (woken pc) = cpc_holds pc.
Proof. by destruct pc. Qed.

Ltac lock_solve Hinv :=
  let t := fresh "t" in
  intros t;
  pose proof (Hinv t); pose proof (Hinv Consumer); pose proof (Hinv Proxy);
  try match goal with
  | H : producers _ !! ?n = _ |- _ => pose proof (Hinv (Producer n))
  end;
  clear Hinv; unfold holder in *; fields; signals;
  rewrite ?woken_holds in *; pcs;
  destruct t as [| |m]; cbn [cpc_holds ppc_holds wpc_holds] in *;
  lookups; cbn [cpc_holds ppc_holds wpc_holds] in *;
  intuition congruence.

Lemma lock_inv_init chk : lock_inv (android_init_events chk).
Proof. intros [| |n]; simpl; [| |rewrite lookup_empty]; intuition congruence. Qed.

Lemma lock_inv_step l s s' : lock_inv s → step l s = Some s' → lock_inv s'.
Proof.
  intros Hinv H. step_inv H; unfold lock_inv; lock_solve Hinv.
Qed.

(** ** The handshake with the select thread *)
Lemma woken_carm pc : carm (woken pc) = carm pc.
Proof. by destruct pc. Qed.

Lemma sync_inv_init chk : sync_inv (android_init_events chk).
Proof. reflexivity. Qed.

Lemma sync_inv_step l s s' : sync_inv s → step l s = Some s' → sync_inv s'.
Proof.
  intros Hinv H. unfold sync_inv, pending_token in *.
  step_inv H; fields; signals; rewrite ?woken_carm; pcs;
    cbn [carm pbusy] in *;
    repeat match goal with
    | H : sigusr2_pending _ = _ |- _ => rewrite H in *; clear H
    end;
    try destruct (sigusr2_pending s); lia.
Qed.

(** ** The result under construction *)
Lemma fuse_inv_init chk : fuse_inv (android_init_events chk).
Proof. exact I. Qed.

Lemma fuse_ok_woken pc count rc :
  fuse_ok (woken pc) count rc = fuse_ok pc count rc.
Proof. by destruct pc. Qed.

Ltac same H :=
  match goal with
  | |- ?G => match type of H with G => exact H end
  end.

Lemma fuse_inv_step l s s' :
  lock_inv s → sync_inv s → fuse_inv s → step l s = Some s' → fuse_inv s'.
Proof.
  intros Hlock Hsync Hinv H.
  unfold fuse_inv in *.
  step_inv H; fields; signals; rewrite ?fuse_ok_woken; try same Hinv.
  all: try (cbn [fuse_ok] in *; unfold fuse, fuse_rc, fuse_events in *;
            repeat case_decide; first [done | lia]).
  - unfold sync_inv in Hsync.
    match goal with H : proxy _ = _ |- _ => rewrite H in Hsync end.
    destruct (consumer s) eqn:E; try done; simpl in Hsync; lia.
  - pose proof (Hlock (Producer n)) as HP. pose proof (Hlock Consumer) as HC.
    simpl in HP, HC.
    match goal with H : producers _ !! _ = _ |- _ => rewrite H in HP end.
    simpl in HP.
    destruct (consumer s) eqn:E; try done; simpl in HC; intuition congruence.
Qed.

(** ** The order of actions in the select thread *)
Lemma actions_of_app t h1 h2 :
  actions_of t (h1 ++ h2) = actions_of t h1 ++ actions_of t h2.
Proof. apply omap_app. Qed.

Lemma iterations_snoc done a rc :
  iterations (done ++ [(a, rc)]) = iterations done ++ iteration a rc.
Proof.
  unfold iterations. rewrite flat_map_app. simpl. by rewrite ?app_nil_r.
Qed.

Lemma proxy_inv_init chk : proxy_inv (android_init_events chk).
Proof. by exists [], (PselectArgs 0 0 0 0 0 0), 0. Qed.

Lemma proxy_inv_step l s s' : proxy_inv s → step l s = Some s' → proxy_inv s'.
Proof.
  intros (done & ca & crc & Heq & Hrc) H. unfold proxy_inv, history in *.
  step_inv H; fields; signals;
    rewrite ?reverse_cons, ?actions_of_app; simpl; rewrite ?app_nil_r;
    try (by exists done, ca, crc).
  all: simpl in Heq; rewrite Heq; try rewrite (Hrc _ eq_refl).
  all: try (exists done, ca, crc; split; [by rewrite <- ?app_assoc | done]).
  - eexists done, ca, _. split; [by rewrite <- app_assoc | done].
  - exists (done ++ [(ca, crc)]), ca, crc.
    split; [rewrite iterations_snoc, <- app_assoc; simpl; by rewrite ?app_nil_r
           | done].
  - exists done, (android_pselect_args s), rc.
    split; [by rewrite <- app_assoc | by intros ? [= ->]].
Qed.

(** ** The circular list *)
Lemma tail_of_elem p xs : tail_of p xs ∈ p :: xs.
Proof.
  revert p. induction xs as [|x r IH]; intros p; simpl.
  - apply list_elem_of_here.
  - apply list_elem_of_further, IH.
Qed.

Lemma tail_of_snoc p xs y : tail_of p (xs ++ [y]) = y.
Proof. revert p. induction xs as [|x r IH]; intros p; simpl; auto. Qed.

Lemma lchain_snoc h p xs y q :
  lchain h p (xs ++ [y]) q ↔ lchain h p xs y ∧ hlast h y = Some q.
Proof.
  revert p. induction xs as [|x r IH]; intros p; simpl; [done|].
  rewrite IH. tauto.
Qed.

Lemma nchain_snoc h p xs y q :
  nchain h p (xs ++ [y]) q
  ↔ nchain h p xs y ∧ hnext h q = Some y.
Proof.
  revert p. induction xs as [|x r IH]; intros p; simpl; [done|].
  rewrite IH. tauto.
Qed.

Lemma lchain_head h p xs q : lchain h p xs q → hlast h p = Some (head_of xs q).
Proof. destruct xs; simpl; tauto. Qed.

Lemma nchain_tail h p xs q : nchain h p xs q → hnext h q = Some (tail_of p xs).
Proof.
  revert p. induction xs as [|x r IH]; intros p; simpl; [done|].
  intros [_ ?]. by apply IH.
Qed.

Lemma lchain_frame h h' p xs q :
  (∀ x, x ∈ p :: xs → hlast h' x = hlast h x) →
  lchain h p xs q → lchain h' p xs q.
Proof.
  revert p. induction xs as [|x r IH]; intros p Hsame; simpl.
  - intros <-. apply Hsame, list_elem_of_here.
  - intros [Hp Hr]. split.
    + rewrite <- Hp. apply Hsame, list_elem_of_here.
    + apply IH; [|done]. intros y Hy. by apply Hsame, list_elem_of_further.
Qed.

Lemma nchain_frame h h' p xs q :
  (∀ x, x ∈ q :: xs → hnext h' x = hnext h x) →
  nchain h p xs q → nchain h' p xs q.
Proof.
  revert p. induction xs as [|x r IH]; intros p Hsame; simpl.
  - intros <-. apply Hsame, list_elem_of_here.
  - intros [Hp Hr]. split.
    + rewrite <- Hp. apply Hsame, list_elem_of_further, list_elem_of_here.
    + apply IH; [|done]. intros y Hy. apply Hsame.
      apply elem_of_cons in Hy as [->|Hy].
      * apply list_elem_of_here.
      * by do 2 apply list_elem_of_further.
Qed.

Lemma events_of_frame h h' xs :
  (∀ x, x ∈ xs → hevent h' x = hevent h x) →
  events_of h' xs = events_of h xs.
Proof.
  unfold events_of. induction xs as [|x r IH]; intros Hsame; [done|].
  assert (omap (hevent h') r = omap (hevent h) r) as IH'.
  { apply IH. intros y Hy. by apply Hsame, list_elem_of_further. }
  simpl. rewrite (Hsame x) by apply list_elem_of_here.
  destruct (hevent h x); [f_equal|]; exact IH'.
Qed.

Lemma events_of_app h xs ys :
  events_of h (xs ++ ys) = events_of h xs ++ events_of h ys.
Proof. apply omap_app. Qed.

(** Changing where the end of the chain points. *)
Lemma lchain_retarget h h' p xs q q' :
  NoDup (p :: xs) →
  (∀ x, x ≠ tail_of p xs → hlast h' x = hlast h x) →
  hlast h' (tail_of p xs) = Some q' →
  lchain h p xs q → lchain h' p xs q'.
Proof.
  revert p. induction xs as [|x r IH]; intros p Hnd Hsame Hnew; simpl.
  - done.
  - intros [Hp Hr]. simpl in Hnew, Hsame.
    apply NoDup_cons in Hnd as [Hp_notin Hnd]. split.
    + rewrite <- Hp. apply Hsame. intros ->.
      apply Hp_notin, tail_of_elem.
    + by apply IH.
Qed.

Lemma nchain_retarget h p xs q q' :
  hnext h q' = Some (tail_of p xs) → nchain h p xs q → nchain h p xs q'.
Proof.
  revert p. induction xs as [|x r IH]; intros p Hq'; simpl; [done|].
  intros [Hp Hr]. split; [done|]. by apply IH.
Qed.

(** ** Stores and the fields they leave alone *)
Lemma set_next_lookup p q h h' x :
  set_next p q h = Some h' →
  hnext h' x = (if decide (x = p) then Some q else hnext h x)
  ∧ hlast h' x = hlast h x ∧ hevent h' x = hevent h x
  ∧ (is_Some (h' !! x) ↔ is_Some (h !! x)).
Proof.
  unfold set_next, hnext, hlast, hevent.
  destruct (h !! p) as [c|] eqn:Hp; [|done]. intros [= <-].
  destruct (decide (x = p)) as [->|Hne].
  - rewrite lookup_insert_eq, Hp. simpl. naive_solver.
  - rewrite lookup_insert_ne by done. naive_solver.
Qed.

Lemma set_last_lookup p q h h' x :
  set_last p q h = Some h' →
  hlast h' x = (if decide (x = p) then Some q else hlast h x)
  ∧ hnext h' x = hnext h x ∧ hevent h' x = hevent h x
  ∧ (is_Some (h' !! x) ↔ is_Some (h !! x)).
Proof.
  unfold set_last, hnext, hlast, hevent.
  destruct (h !! p) as [c|] eqn:Hp; [|done]. intros [= <-].
  destruct (decide (x = p)) as [->|Hne].
  - rewrite lookup_insert_eq, Hp. simpl. naive_solver.
  - rewrite lookup_insert_ne by done. naive_solver.
Qed.

Lemma set_event_lookup p e h h' x :
  set_event p e h = Some h' →
  hevent h' x = (if decide (x = p) then Some e else hevent h x)
  ∧ hnext h' x = hnext h x ∧ hlast h' x = hlast h x
  ∧ (is_Some (h' !! x) ↔ is_Some (h !! x)).
Proof.
  unfold set_event, hnext, hlast, hevent.
  destruct (h !! p) as [c|] eqn:Hp; [|done]. intros [= <-].
  destruct (decide (x = p)) as [->|Hne].
  - rewrite lookup_insert_eq, Hp. simpl. naive_solver.
  - rewrite lookup_insert_ne by done. naive_solver.
Qed.

(** ** The queue invariant *)
Lemma queue_inv_init chk : queue_inv (android_init_events chk).
Proof.
  exists []. repeat split; simpl.
  - apply NoDup_singleton.
  - intros p ->%list_elem_of_singleton. by rewrite lookup_singleton_eq.
  - destruct t as [| |n]; simpl in *; [done..|by rewrite lookup_empty in *].
  - destruct t as [| |n]; simpl in *; [done..|by rewrite lookup_empty in *].
  - destruct t1 as [| |n]; simpl in *; [done..|by rewrite lookup_empty in *].
Qed.

Lemma inserted_snoc h x :
  inserted (h ++ [x])
  = inserted h ++ match x.2 with AInsert e => [e] | _ => [] end.
Proof.
  unfold inserted. rewrite omap_app. simpl. by destruct (x.2).
Qed.

Lemma removed_snoc h x :
  removed (h ++ [x])
  = removed h ++ match x.2 with ARemove e => [e] | _ => [] end.
Proof.
  unfold removed. rewrite omap_app. simpl. by destruct (x.2).
Qed.

Lemma woken_cphase pc : cphase (woken pc) = cphase pc.
Proof. by destruct pc. Qed.

Lemma woken_own pc : own_c (woken pc) = own_c pc.
Proof. by destruct pc. Qed.

(** A step that leaves the heap, the count, the phase and the containers in
    hand alone, and neither inserts nor removes. *)
Lemma queue_inv_frame s s' :
  heap s' = heap s →
  num_events s' = num_events s →
  inserted (history s') = inserted (history s) →
  removed (history s') = removed (history s) →
  phase_of s' = phase_of s →
  (∀ t, owned s' t = owned s t) →
  queue_inv s → queue_inv s'.
Proof.
  intros Hh Hn Hi Hr Hp Ho [l (Hal & [Hown Hdist] & Hl & Hc & Hf)].
  exists l. unfold queue_ok, own_ok. rewrite Hh, Hn, Hi, Hr, Hp.
  split; [done|]. split; [|done]. split.
  - intros t c. rewrite Ho. apply Hown.
  - intros t1 t2 c. rewrite !Ho. apply Hdist.
Qed.

Ltac traces :=
  unfold history; fields; signals;
  rewrite ?reverse_cons, ?inserted_snoc, ?removed_snoc; simpl;
  rewrite ?app_nil_r.

Ltac phase_same :=
  unfold phase_of; fields; signals; rewrite ?woken_cphase; pcs;
  try match goal with
  | |- context [match mutex ?s with _ => _ end] =>
      destruct (mutex s) as [[| |?m]|]
  end;
  lookups; pcs; reflexivity.

Ltac owned_same :=
  let t := fresh "t" in
  intros t; destruct t as [| |?m]; unfold owned; fields; signals;
  rewrite ?woken_own; pcs; lookups; pcs; reflexivity.

Ltac frame_solve :=
  apply queue_inv_frame;
  [ by (fields; signals) | by (fields; signals) | by traces | by traces
  | phase_same | owned_same ].

Lemma consumer_mutex s :
  lock_inv s → cpc_holds (consumer s) = true → mutex s = Some Consumer.
Proof. intros Hlock. apply (Hlock Consumer). Qed.

Lemma producer_mutex s n pc :
  lock_inv s → producers s !! n = Some pc → wpc_holds pc = true →
  mutex s = Some (Producer n).
Proof.
  intros Hlock Hpc Hholds. apply (Hlock (Producer n)). simpl. by rewrite Hpc.
Qed.

Lemma allocated_frame h h' l :
  (∀ x, is_Some (h !! x) → is_Some (h' !! x)) →
  allocated h l → allocated h' l.
Proof. intros Hsub [Hnd Hdom]. split; [done|]. intros p Hp. auto. Qed.

Lemma own_ok_frame s s' l :
  (∀ t, owned s' t = owned s t) →
  (∀ x, is_Some (heap s !! x) → is_Some (heap s' !! x)) →
  own_ok s l → own_ok s' l.
Proof.
  intros Ho Hsub [Hown Hdist]. split.
  - intros t c. rewrite Ho. intros [? ?]%Hown. auto.
  - intros t1 t2 c. rewrite !Ho. apply Hdist.
Qed.

Lemma is_queue_frame h h' l :
  (∀ x, x ∈ events_addr :: l → hlast h' x = hlast h x) →
  (∀ x, x ∈ events_addr :: l → hnext h' x = hnext h x) →
  is_queue h l → is_queue h' l.
Proof.
  intros Hl Hn [? ?]. split.
  - eapply lchain_frame; eauto.
  - eapply nchain_frame; eauto.
Qed.

Lemma hlast_lookup h p c : h !! p = Some c → hlast h p = Some (last c).
Proof. unfold hlast. by intros ->. Qed.

Lemma hnext_lookup h p c : h !! p = Some c → hnext h p = Some (next c).
Proof. unfold hnext. by intros ->. Qed.

Lemma hevent_lookup h p c : h !! p = Some c → hevent h p = Some (event c).
Proof. unfold hevent. by intros ->. Qed.

(** *** Line 358 *)
Lemma queue_inv_last s a :
  lock_inv s → consumer s = NxtLast → heap s !! events_addr = Some a →
  queue_inv s → queue_inv (with_consumer (NxtAssert (last a)) s).
Proof.
  intros Hlock Hpc Ha (l & Hal & Hown & Hl & Hc & Hf).
  assert (mutex s = Some Consumer) as Hm
    by (apply consumer_mutex; [done|by rewrite Hpc]).
  unfold phase_of in *. rewrite Hm, Hpc in *. simpl in *.
  exists l. unfold queue_ok, phase_of, history in *. fields. rewrite Hm. simpl.
  split; [done|]. split; [by eapply own_ok_frame; [| |done]; [owned_same|]|].
  split; [|done]. split; [done|].
  destruct Hl as [Hl _]. apply lchain_head in Hl.
  rewrite (hlast_lookup _ _ _ Ha) in Hl. congruence.
Qed.

(** *** Line 359 *)
Lemma queue_inv_assert_fail s :
  lock_inv s → consumer s = NxtAssert events_addr →
  queue_inv s → queue_inv (log Consumer AAssertFail (with_consumer CAbort s)).
Proof.
  intros Hlock Hpc (l & Hal & Hown & Hl & Hc & Hf).
  assert (mutex s = Some Consumer) as Hm
    by (apply consumer_mutex; [done|by rewrite Hpc]).
  unfold phase_of in *. rewrite Hm, Hpc in *. simpl in *.
  exists l. unfold queue_ok, phase_of, history in *. traces. rewrite Hm. simpl.
  split; [done|]. split; [by eapply own_ok_frame; [| |done]; [owned_same|]|].
  split; [tauto|done].
Qed.

Lemma queue_inv_assert_ok s c :
  lock_inv s → consumer s = NxtAssert c → c ≠ events_addr →
  queue_inv s → queue_inv (with_consumer (NxtUnlink1 c) s).
Proof.
  intros Hlock Hpc Hne (l & Hal & Hown & Hl & Hc & Hf).
  assert (mutex s = Some Consumer) as Hm
    by (apply consumer_mutex; [done|by rewrite Hpc]).
  unfold phase_of in *. rewrite Hm, Hpc in *.
  cbn [cphase links counted queued fifo] in *.
  exists l. unfold queue_ok, phase_of, history in *. fields. rewrite Hm.
  cbn [cphase]. rewrite decide_False by done.
  cbn [links counted queued fifo].
  split; [done|]. split; [by eapply own_ok_frame; [| |done]; [owned_same|]|].
  split; [|done]. destruct Hl as [Hq ->]. split; [done|]. split; [done|].
  intros ->. done.
Qed.

(** Without ENABLE_CHECKING the sentinel passes line 359.  This happens
    only when the queue is empty. *)
Lemma queue_inv_assert_skip s :
  lock_inv s → consumer s = NxtAssert events_addr →
  queue_inv s → queue_inv (with_consumer (NxtUnlink1 events_addr) s).
Proof.
  intros Hlock Hpc (l & Hal & Hown & Hl & Hc & Hf).
  assert (mutex s = Some Consumer) as Hm
    by (apply consumer_mutex; [done|by rewrite Hpc]).
  unfold phase_of in *. rewrite Hm, Hpc in *.
  cbn [cphase links counted queued fifo] in *.
  assert (l = []) as ->.
  { destruct Hl as [_ Hhd]. destruct l as [|x r]; [done|]. simpl in Hhd.
    destruct Hal as [Hnd _]. apply NoDup_cons in Hnd as [Hs _].
    exfalso. apply Hs. subst. apply list_elem_of_here. }
  exists []. unfold queue_ok, phase_of, history in *. fields. rewrite Hm.
  split; [done|]. split; [by eapply own_ok_frame; [| |done]; [owned_same|]|].
  split; [|done]. split; [tauto|done].
Qed.

Lemma NoDup_sentinel (s c : positive) (l : list positive) :
  NoDup (s :: c :: l) →
  s ≠ c ∧ (s ∉ l) ∧ (c ∉ l) ∧ NoDup l ∧ NoDup (s :: l) ∧ (c ∉ s :: l).
Proof.
  rewrite !NoDup_cons, !not_elem_of_cons. intuition congruence.
Qed.

(** *** Line 363 *)
Lemma unlink_next h h' c l :
  NoDup (events_addr :: c :: l) →
  nchain h events_addr (c :: l) events_addr →
  set_next (head_of l events_addr) events_addr h = Some h' →
  nchain h' events_addr l events_addr ∧ hnext h' c = Some events_addr.
Proof.
  intros Hnd [Hc Hr] Hset.
  apply NoDup_sentinel in Hnd as (Hsc & Hsl & Hcl & Hnd & _ & _).
  split.
  - destruct l as [|x r]; simpl in *.
    + destruct (set_next_lookup _ _ _ _ events_addr Hset) as (-> & _).
      by rewrite decide_True.
    + destruct Hr as [Hx Hr]. split.
      * destruct (set_next_lookup _ _ _ _ x Hset) as (-> & _).
        by rewrite decide_True.
      * eapply nchain_frame; [|done]. intros y Hy.
        destruct (set_next_lookup _ _ _ _ y Hset) as (-> & _).
        rewrite decide_False; [done|]. intros ->.
        apply NoDup_cons in Hnd as [Hxr _].
        apply elem_of_cons in Hy as [?|?]; [|done].
        apply Hsl. subst. apply list_elem_of_here.
  - destruct (set_next_lookup _ _ _ _ c Hset) as (-> & _).
    rewrite decide_False; [done|]. intros ->.
    destruct l as [|x r]; simpl in *; [done|].
    apply Hcl, list_elem_of_here.
Qed.

Lemma queue_inv_unlink1 s c node h' :
  lock_inv s → consumer s = NxtUnlink1 c → c ≠ events_addr →
  heap s !! c = Some node →
  set_next (last node) (next node) (heap s) = Some h' →
  queue_inv s → queue_inv (with_consumer (NxtUnlink2 c) (with_heap h' s)).
Proof.
  intros Hlock Hpc Hcs Hnode Hset
    (l & [Hnd Hdom] & [Hown Hdist] & Hl & Hc & Hf).
  assert (mutex s = Some Consumer) as Hm
    by (apply consumer_mutex; [done|by rewrite Hpc]).
  unfold phase_of in *. rewrite Hm, Hpc in *.
  cbn [cphase] in *. rewrite decide_False in Hl, Hc, Hf by done.
  cbn [links counted queued fifo] in *.
  destruct Hl as ([Hlc Hnc] & Hhd & Hne).
  destruct l as [|c' l]; [done|]. simpl in Hhd. subst c'.
  assert (last node = head_of l events_addr) as Hlast.
  { destruct Hlc as [_ Hlc]. apply lchain_head in Hlc.
    rewrite (hlast_lookup _ _ _ Hnode) in Hlc. congruence. }
  assert (next node = events_addr) as Hnext.
  { destruct Hnc as [Hnc _].
    rewrite (hnext_lookup _ _ _ Hnode) in Hnc. congruence. }
  rewrite Hlast, Hnext in Hset.
  destruct (unlink_next _ _ _ _ Hnd (conj (proj1 Hnc) (proj2 Hnc)) Hset)
    as [Hnc' Hcn].
  assert (∀ x, is_Some (heap s !! x) → is_Some (h' !! x)) as Hsub.
  { intros x. by destruct (set_next_lookup _ _ _ _ x Hset) as (_ & _ & _ & ->). }
  pose proof (NoDup_sentinel _ _ _ Hnd)
    as (Hsc & Hsl & Hcl' & Hnd' & Hnd'' & Hcl).
  exists l. unfold queue_ok, own_ok, owned, phase_of, history in *.
  fields. rewrite Hm. cbn [cphase own_c]. rewrite !decide_False by done.
  cbn [links counted queued fifo].
  split; [|split; [|split; [|split]]].
  - split; [done|].
    + intros p Hp. apply Hsub, Hdom.
      apply elem_of_cons in Hp as [->|Hp]; [apply list_elem_of_here|].
      by do 2 apply list_elem_of_further.
  - split.
    + intros [| |m] c0.
      * intros [= <-]. split; [|done]. apply Hsub. by rewrite Hnode.
      * done.
      * intros Ho. destruct (Hown (Producer m) c0 Ho) as [? Hnotin].
        split; [by apply Hsub|].
        apply not_elem_of_cons in Hnotin as [? Hnotin].
        apply not_elem_of_cons in Hnotin as [? ?].
        by apply not_elem_of_cons.
    + intros [| |m1] [| |m2] c0; try done.
      * intros [= <-] Ho. destruct (Hown (Producer m2) c Ho) as [_ Hnotin].
        exfalso. apply Hnotin. apply list_elem_of_further, list_elem_of_here.
      * intros Ho [= <-]. destruct (Hown (Producer m1) c Ho) as [_ Hnotin].
        exfalso. apply Hnotin. apply list_elem_of_further, list_elem_of_here.
      * apply (Hdist (Producer m1) (Producer m2)).
  - split; [|done].
    eapply (lchain_frame (heap s)); [|done]. intros x _.
    by destruct (set_next_lookup _ _ _ _ x Hset) as (_ & -> & _).
  - simpl in Hc. lia.
  - rewrite Hf. f_equal. symmetry. apply events_of_frame. intros x _.
    by destruct (set_next_lookup _ _ _ _ x Hset) as (_ & _ & -> & _).
Qed.

(** The same statement on the sentinel of an empty list changes nothing. *)
Lemma queue_inv_doomed_unlink1 s node h' :
  lock_inv s → consumer s = NxtUnlink1 events_addr →
  heap s !! events_addr = Some node →
  set_next (last node) (next node) (heap s) = Some h' →
  queue_inv s →
  queue_inv (with_consumer (NxtUnlink2 events_addr) (with_heap h' s)).
Proof.
  intros Hlock Hpc Hnode Hset (l & Hal & Hown & Hl & Hc & Hf).
  assert (mutex s = Some Consumer) as Hm
    by (apply consumer_mutex; [done|by rewrite Hpc]).
  unfold phase_of in *. rewrite Hm, Hpc in *.
  cbn [cphase links counted queued fifo] in *.
  destruct Hl as [[Hlc Hnc] ->]. simpl in Hlc, Hnc.
  rewrite (hlast_lookup _ _ _ Hnode) in Hlc. injection Hlc as Hlast.
  rewrite (hnext_lookup _ _ _ Hnode) in Hnc. injection Hnc as Hnext.
  rewrite Hlast, Hnext in Hset.
  assert (∀ x, is_Some (heap s !! x) → is_Some (h' !! x)) as Hsub.
  { intros x. by destruct (set_next_lookup _ _ _ _ x Hset) as (_ & _ & _ & ->). }
  exists []. unfold queue_ok, phase_of, history in *. fields. rewrite Hm.
  split; [by eapply allocated_frame|].
  split; [eapply own_ok_frame; [| |done]; [owned_same|done]|].
  split; [|done]. split; [split; simpl|done].
  - destruct (set_next_lookup _ _ _ _ events_addr Hset) as (_ & -> & _).
    by rewrite (hlast_lookup _ _ _ Hnode), Hlast.
  - by destruct (set_next_lookup _ _ _ _ events_addr Hset) as (-> & _).
Qed.

(** *** Line 364 *)
Lemma unlink_last h h' c l :
  events_addr ∉ l →
  lchain h events_addr (c :: l) events_addr →
  set_last events_addr (head_of l events_addr) h = Some h' →
  lchain h' events_addr l events_addr.
Proof.
  intros Hsl [Hc Hr] Hset.
  destruct l as [|x r]; simpl in *.
  - destruct (set_last_lookup _ _ _ _ events_addr Hset) as (-> & _).
    by rewrite decide_True.
  - destruct Hr as [Hx Hr]. split.
    + destruct (set_last_lookup _ _ _ _ events_addr Hset) as (-> & _).
      by rewrite decide_True.
    + eapply lchain_frame; [|done]. intros y Hy.
      destruct (set_last_lookup _ _ _ _ y Hset) as (-> & _).
      rewrite decide_False; [done|]. by intros ->.
Qed.

Lemma queue_inv_unlink2 s c node h' :
  lock_inv s → consumer s = NxtUnlink2 c → c ≠ events_addr →
  heap s !! c = Some node →
  set_last (next node) (last node) (heap s) = Some h' →
  queue_inv s → queue_inv (with_consumer (NxtCopy c) (with_heap h' s)).
Proof.
  intros Hlock Hpc Hcs Hnode Hset (l & [Hnd Hdom] & Hown & Hl & Hc & Hf).
  assert (mutex s = Some Consumer) as Hm
    by (apply consumer_mutex; [done|by rewrite Hpc]).
  unfold phase_of in *. rewrite Hm, Hpc in *.
  cbn [cphase] in *. rewrite decide_False in Hl, Hc, Hf by done.
  cbn [links counted queued fifo] in *.
  destruct Hl as (Hlc & Hnc & Hcn).
  assert (last node = head_of l events_addr) as Hlast.
  { destruct Hlc as [_ Hlc]. apply lchain_head in Hlc.
    rewrite (hlast_lookup _ _ _ Hnode) in Hlc. congruence. }
  assert (next node = events_addr) as Hnext.
  { rewrite (hnext_lookup _ _ _ Hnode) in Hcn. congruence. }
  rewrite Hlast, Hnext in Hset.
  assert (∀ x, is_Some (heap s !! x) → is_Some (h' !! x)) as Hsub.
  { intros x. by destruct (set_last_lookup _ _ _ _ x Hset) as (_ & _ & _ & ->). }
  exists l. unfold queue_ok, phase_of, history in *. fields. rewrite Hm.
  cbn [cphase]. rewrite decide_False by done.
  cbn [links counted queued fifo].
  split; [|split; [|split; [|split]]].
  - by eapply allocated_frame.
  - eapply own_ok_frame; [| |done]; [owned_same|done].
  - split; [split|].
    + eapply unlink_last; [|done..]. by apply NoDup_cons in Hnd as [? ?].
    + eapply nchain_frame; [|done]. intros x _.
      by destruct (set_last_lookup _ _ _ _ x Hset) as (_ & -> & _).
    + apply Hsub. by rewrite Hnode.
  - done.
  - rewrite Hf. f_equal. symmetry. apply events_of_frame. intros x _.
    by destruct (set_last_lookup _ _ _ _ x Hset) as (_ & _ & -> & _).
Qed.

Lemma queue_inv_doomed_unlink2 s node h' :
  lock_inv s → consumer s = NxtUnlink2 events_addr →
  heap s !! events_addr = Some node →
  set_last (next node) (last node) (heap s) = Some h' →
  queue_inv s →
  queue_inv (with_consumer (NxtCopy events_addr) (with_heap h' s)).
Proof.
  intros Hlock Hpc Hnode Hset (l & Hal & Hown & Hl & Hc & Hf).
  assert (mutex s = Some Consumer) as Hm
    by (apply consumer_mutex; [done|by rewrite Hpc]).
  unfold phase_of in *. rewrite Hm, Hpc in *.
  cbn [cphase links counted queued fifo] in *.
  destruct Hl as [[Hlc Hnc] ->]. simpl in Hlc, Hnc.
  rewrite (hlast_lookup _ _ _ Hnode) in Hlc. injection Hlc as Hlast.
  rewrite (hnext_lookup _ _ _ Hnode) in Hnc. injection Hnc as Hnext.
  rewrite Hlast, Hnext in Hset.
  assert (∀ x, is_Some (heap s !! x) → is_Some (h' !! x)) as Hsub.
  { intros x. by destruct (set_last_lookup _ _ _ _ x Hset) as (_ & _ & _ & ->). }
  exists []. unfold queue_ok, phase_of, history in *. fields. rewrite Hm.
  split; [by eapply allocated_frame|].
  split; [eapply own_ok_frame; [| |done]; [owned_same|done]|].
  split; [|done]. split; [split; simpl|done].
  - by destruct (set_last_lookup _ _ _ _ events_addr Hset) as (-> & _).
  - destruct (set_last_lookup _ _ _ _ events_addr Hset) as (_ & -> & _).
    by rewrite (hnext_lookup _ _ _ Hnode), Hnext.
Qed.

(** *** Line 365 *)
Lemma queue_inv_copy s c node :
  lock_inv s → consumer s = NxtCopy c → c ≠ events_addr →
  heap s !! c = Some node →
  queue_inv s →
  queue_inv (log Consumer (ARemove (event node))
               (with_consumer (NxtDec c (event node)) s)).
Proof.
  intros Hlock Hpc Hcs Hnode (l & Hal & Hown & Hl & Hc & Hf).
  assert (mutex s = Some Consumer) as Hm
    by (apply consumer_mutex; [done|by rewrite Hpc]).
  unfold phase_of in *. rewrite Hm, Hpc in *.
  cbn [cphase] in *. rewrite decide_False in Hl, Hc, Hf by done.
  cbn [links counted queued fifo] in *.
  exists l. unfold queue_ok, phase_of, history in *. traces. rewrite Hm.
  cbn [cphase]. rewrite decide_False by done.
  cbn [links counted queued fifo].
  split; [done|]. split; [by eapply own_ok_frame; [| |done]; [owned_same|]|].
  split; [tauto|]. split; [done|].
  rewrite Hf. unfold events_of. simpl.
  rewrite (hevent_lookup _ _ _ Hnode). by rewrite <- app_assoc.
Qed.

Lemma queue_inv_doomed_copy s node :
  lock_inv s → consumer s = NxtCopy events_addr →
  queue_inv s →
  queue_inv (log Consumer (ARemove (event node))
               (with_consumer (NxtDec events_addr (event node)) s)).
Proof.
  intros Hlock Hpc (l & Hal & Hown & Hl & Hc & Hf).
  assert (mutex s = Some Consumer) as Hm
    by (apply consumer_mutex; [done|by rewrite Hpc]).
  unfold phase_of in *. rewrite Hm, Hpc in *.
  cbn [cphase links counted queued fifo] in *.
  destruct Hl as [Hq ->].
  exists []. unfold queue_ok, phase_of, history in *. traces. rewrite Hm.
  split; [done|]. split; [by eapply own_ok_frame; [| |done]; [owned_same|]|].
  split; [done|]. split; [done|].
  simpl in *. rewrite app_nil_r in Hf. by rewrite Hf.
Qed.

(** *** Line 366 *)
Lemma queue_inv_dec s c e :
  lock_inv s → consumer s = NxtDec c e → c ≠ events_addr →
  queue_inv s →
  queue_inv (with_consumer (NxtFree c e)
               (with_num_events (num_events s - 1) s)).
Proof.
  intros Hlock Hpc Hcs (l & Hal & Hown & Hl & Hc & Hf).
  assert (mutex s = Some Consumer) as Hm
    by (apply consumer_mutex; [done|by rewrite Hpc]).
  unfold phase_of in *. rewrite Hm, Hpc in *.
  cbn [cphase] in *. rewrite decide_False in Hl, Hc, Hf by done.
  cbn [links counted queued fifo] in *.
  exists l. unfold queue_ok, phase_of, history in *. fields. rewrite Hm.
  cbn [cphase]. rewrite decide_False by done.
  cbn [links counted queued fifo].
  split; [done|]. split; [by eapply own_ok_frame; [| |done]; [owned_same|]|].
  split; [done|]. split; [lia|done].
Qed.

Lemma queue_inv_doomed_dec s e :
  lock_inv s → consumer s = NxtDec events_addr e →
  queue_inv s →
  queue_inv (with_consumer (NxtFree events_addr e)
               (with_num_events (num_events s - 1) s)).
Proof.
  intros Hlock Hpc (l & Hal & Hown & Hl & Hc & Hf).
  assert (mutex s = Some Consumer) as Hm
    by (apply consumer_mutex; [done|by rewrite Hpc]).
  unfold phase_of in *. rewrite Hm, Hpc in *.
  cbn [cphase links counted queued fifo] in *.
  exists l. unfold queue_ok, phase_of, history in *. fields. rewrite Hm.
  split; [done|]. split; [by eapply own_ok_frame; [| |done]; [owned_same|]|].
  done.
Qed.

(** *** Line 369 *)
Lemma queue_inv_free s c e :
  lock_inv s → consumer s = NxtFree c e → c ≠ events_addr →
  queue_inv s →
  queue_inv (log Consumer (AFree c)
               (with_consumer (NxtSignal e)
                  (with_heap (delete c (heap s)) s))).
Proof.
  intros Hlock Hpc Hcs (l & [Hnd Hdom] & [Hown Hdist] & Hl & Hc & Hf).
  assert (mutex s = Some Consumer) as Hm
    by (apply consumer_mutex; [done|by rewrite Hpc]).
  unfold phase_of in *. rewrite Hm, Hpc in *.
  cbn [cphase] in *. rewrite decide_False in Hl, Hc, Hf by done.
  cbn [links counted queued fifo] in *.
  assert (owned s Consumer = Some c) as Hoc
    by (simpl; rewrite Hpc; simpl; by rewrite decide_False).
  destruct (Hown Consumer c Hoc) as [_ Hc_notin].
  assert (∀ x, x ∈ events_addr :: l →
               delete c (heap s) !! x = heap s !! x) as Hsame.
  { intros x Hx. apply lookup_delete_ne. by intros ->. }
  exists l. unfold queue_ok, phase_of, history in *. traces. rewrite Hm.
  cbn [cphase links counted queued fifo].
  split; [|split; [|split; [|split]]].
  - split; [done|]. intros p Hp. rewrite Hsame by done. by apply Hdom.
  - split.
    + intros [| |m] c0; unfold owned; fields; [done..|].
      intros Ho. destruct (Hown (Producer m) c0 Ho) as [? ?].
      split; [|done]. rewrite lookup_delete_ne; [done|]. intros ->.
      by specialize (Hdist Consumer (Producer m) c0 Hoc Ho).
    + intros [| |m1] [| |m2] c0; unfold owned; fields; try done.
      apply (Hdist (Producer m1) (Producer m2)).
  - eapply is_queue_frame; [| |done]; intros x Hx; unfold hlast, hnext;
      by rewrite Hsame.
  - done.
  - rewrite Hf. f_equal. symmetry. apply events_of_frame. intros x Hx.
    unfold hevent. rewrite Hsame; [done|]. by apply list_elem_of_further.
Qed.

(** *** Line 393 *)
Lemma queue_inv_link1 s n e c ev h' :
  lock_inv s → producers s !! n = Some (WLink1 e c) →
  heap s !! events_addr = Some ev →
  set_next c (next ev) (heap s) = Some h' →
  queue_inv s → queue_inv (set_producer n (WLink2 e c) (with_heap h' s)).
Proof.
  intros Hlock Hpc Hev Hset (l & Hal & Hown & Hl & Hc & Hf).
  assert (mutex s = Some (Producer n)) as Hm by by eapply producer_mutex.
  unfold phase_of in *. rewrite Hm, Hpc in *.
  cbn [wphase links counted queued fifo] in *.
  destruct (proj1 Hown (Producer n) c) as [_ Hc_notin]; [by simpl; rewrite Hpc|].
  assert (∀ x, is_Some (heap s !! x) → is_Some (h' !! x)) as Hsub.
  { intros x. by destruct (set_next_lookup _ _ _ _ x Hset) as (_ & _ & _ & ->). }
  exists l. unfold queue_ok, phase_of, history in *. fields. rewrite Hm.
  rewrite lookup_insert_eq. cbn [wphase links counted queued fifo].
  split; [|split; [|split; [|split]]].
  - by eapply allocated_frame.
  - eapply own_ok_frame; [| |done]; [owned_same|done].
  - split.
    + eapply is_queue_frame; [| |done]; intros x Hx.
      * by destruct (set_next_lookup _ _ _ _ x Hset) as (_ & -> & _).
      * destruct (set_next_lookup _ _ _ _ x Hset) as (-> & _).
        rewrite decide_False; [done|]. by intros ->.
    + destruct (set_next_lookup _ _ _ _ c Hset) as (-> & _).
      rewrite decide_True by done. destruct Hl as [_ Hn].
      apply nchain_tail in Hn. rewrite (hnext_lookup _ _ _ Hev) in Hn.
      congruence.
  - done.
  - rewrite Hf. f_equal. symmetry. apply events_of_frame. intros x _.
    by destruct (set_next_lookup _ _ _ _ x Hset) as (_ & _ & -> & _).
Qed.

(** *** Line 394 *)
Lemma queue_inv_link2 s n e c h' :
  lock_inv s → producers s !! n = Some (WLink2 e c) →
  set_last c events_addr (heap s) = Some h' →
  queue_inv s → queue_inv (set_producer n (WLink3 e c) (with_heap h' s)).
Proof.
  intros Hlock Hpc Hset (l & Hal & Hown & Hl & Hc & Hf).
  assert (mutex s = Some (Producer n)) as Hm by by eapply producer_mutex.
  unfold phase_of in *. rewrite Hm, Hpc in *.
  cbn [wphase links counted queued fifo] in *.
  destruct (proj1 Hown (Producer n) c) as [_ Hc_notin]; [by simpl; rewrite Hpc|].
  assert (∀ x, is_Some (heap s !! x) → is_Some (h' !! x)) as Hsub.
  { intros x. by destruct (set_last_lookup _ _ _ _ x Hset) as (_ & _ & _ & ->). }
  exists l. unfold queue_ok, phase_of, history in *. fields. rewrite Hm.
  rewrite lookup_insert_eq. cbn [wphase links counted queued fifo].
  split; [|split; [|split; [|split]]].
  - by eapply allocated_frame.
  - eapply own_ok_frame; [| |done]; [owned_same|done].
  - destruct Hl as [Hq Hcn]. split; [|split].
    + eapply is_queue_frame; [| |done]; intros x Hx.
      * destruct (set_last_lookup _ _ _ _ x Hset) as (-> & _).
        rewrite decide_False; [done|]. by intros ->.
      * by destruct (set_last_lookup _ _ _ _ x Hset) as (_ & -> & _).
    + by destruct (set_last_lookup _ _ _ _ c Hset) as (_ & -> & _).
    + destruct (set_last_lookup _ _ _ _ c Hset) as (-> & _).
      by rewrite decide_True.
  - done.
  - rewrite Hf. f_equal. symmetry. apply events_of_frame. intros x _.
    by destruct (set_last_lookup _ _ _ _ x Hset) as (_ & _ & -> & _).
Qed.

(** *** Line 395 *)
Lemma queue_inv_link3 s n e c node h' :
  lock_inv s → producers s !! n = Some (WLink3 e c) →
  heap s !! c = Some node →
  set_last (next node) c (heap s) = Some h' →
  queue_inv s → queue_inv (set_producer n (WLink4 e c) (with_heap h' s)).
Proof.
  intros Hlock Hpc Hnode Hset (l & [Hnd Hdom] & Hown & Hl & Hc & Hf).
  assert (mutex s = Some (Producer n)) as Hm by by eapply producer_mutex.
  unfold phase_of in *. rewrite Hm, Hpc in *.
  cbn [wphase links counted queued fifo] in *.
  destruct (proj1 Hown (Producer n) c) as [_ Hc_notin]; [by simpl; rewrite Hpc|].
  destruct Hl as ([Hlc Hnc] & Hcn & Hcl).
  assert (next node = tail_of events_addr l) as Hnext.
  { rewrite (hnext_lookup _ _ _ Hnode) in Hcn. congruence. }
  rewrite Hnext in Hset.
  assert (c ≠ tail_of events_addr l) as Hne.
  { intros ->. apply Hc_notin, tail_of_elem. }
  assert (∀ x, is_Some (heap s !! x) → is_Some (h' !! x)) as Hsub.
  { intros x. by destruct (set_last_lookup _ _ _ _ x Hset) as (_ & _ & _ & ->). }
  exists l. unfold queue_ok, phase_of, history in *. fields. rewrite Hm.
  rewrite lookup_insert_eq. cbn [wphase links counted queued fifo].
  split; [|split; [|split; [|split]]].
  - by eapply allocated_frame.
  - eapply own_ok_frame; [| |done]; [owned_same|done].
  - split; [|split].
    + apply lchain_snoc. split.
      * eapply lchain_retarget; [done| | |done].
        -- intros x Hx. destruct (set_last_lookup _ _ _ _ x Hset) as (-> & _).
           by rewrite decide_False.
        -- destruct (set_last_lookup _ _ _ _ (tail_of events_addr l) Hset)
             as (-> & _).
           by rewrite decide_True.
      * destruct (set_last_lookup _ _ _ _ c Hset) as (-> & _).
        by rewrite decide_False.
    + eapply nchain_frame; [|done]. intros x _.
      by destruct (set_last_lookup _ _ _ _ x Hset) as (_ & -> & _).
    + by destruct (set_last_lookup _ _ _ _ c Hset) as (_ & -> & _).
  - done.
  - rewrite Hf. f_equal. symmetry. apply events_of_frame. intros x _.
    by destruct (set_last_lookup _ _ _ _ x Hset) as (_ & _ & -> & _).
Qed.

(** *** Line 396 *)
Lemma queue_inv_link4 s n e c node h' :
  lock_inv s → producers s !! n = Some (WLink4 e c) →
  heap s !! c = Some node →
  set_next (last node) c (heap s) = Some h' →
  queue_inv s → queue_inv (set_producer n (WStore e c) (with_heap h' s)).
Proof.
  intros Hlock Hpc Hnode Hset (l & [Hnd Hdom] & Hown & Hl & Hc & Hf).
  assert (mutex s = Some (Producer n)) as Hm by by eapply producer_mutex.
  unfold phase_of in *. rewrite Hm, Hpc in *.
  cbn [wphase links counted queued fifo] in *.
  destruct (proj1 Hown (Producer n) c) as [_ Hc_notin]; [by simpl; rewrite Hpc|].
  destruct Hl as (Hlc & Hnc & Hcn).
  assert (last node = events_addr) as Hlast.
  { apply lchain_snoc in Hlc as [_ Hcl].
    rewrite (hlast_lookup _ _ _ Hnode) in Hcl. congruence. }
  rewrite Hlast in Hset.
  assert (∀ x, is_Some (heap s !! x) → is_Some (h' !! x)) as Hsub.
  { intros x. by destruct (set_next_lookup _ _ _ _ x Hset) as (_ & _ & _ & ->). }
  exists l. unfold queue_ok, phase_of, history in *. fields. rewrite Hm.
  rewrite lookup_insert_eq. cbn [wphase links counted queued fifo].
  split; [|split; [|split; [|split]]].
  - by eapply allocated_frame.
  - eapply own_ok_frame; [| |done]; [owned_same|done].
  - split.
    + eapply lchain_frame; [|done]. intros x _.
      by destruct (set_next_lookup _ _ _ _ x Hset) as (_ & -> & _).
    + apply nchain_snoc. split.
      * eapply (nchain_frame (heap s)).
        -- intros x Hx.
           destruct (set_next_lookup _ _ _ _ x Hset) as (-> & _).
           rewrite decide_False; [done|]. intros ->.
           apply elem_of_cons in Hx as [?|Hx]; [by apply Hc_notin; subst;
             apply list_elem_of_here|].
           by apply NoDup_cons in Hnd as [? ?].
        -- by eapply nchain_retarget.
      * destruct (set_next_lookup _ _ _ _ events_addr Hset) as (-> & _).
        by rewrite decide_True.
  - done.
  - rewrite Hf. f_equal. symmetry. apply events_of_frame. intros x _.
    by destruct (set_next_lookup _ _ _ _ x Hset) as (_ & _ & -> & _).
Qed.

Lemma owned_producer_step s s' n pc t :
  consumer s' = consumer s → producers s' = <[n := pc]> (producers s) →
  owned s' t = if decide (t = Producer n) then own_w pc else owned s t.
Proof.
  intros Hc Hp. destruct t as [| |m]; simpl.
  - by rewrite Hc.
  - done.
  - rewrite Hp. destruct (decide (n = m)) as [->|Hnm].
    + by rewrite lookup_insert_eq, decide_True.
    + rewrite lookup_insert_ne by done. rewrite decide_False; [done|].
      congruence.
Qed.

(** *** Line 397 *)
Lemma queue_inv_store s n e c h' :
  lock_inv s → producers s !! n = Some (WStore e c) →
  set_event c e (heap s) = Some h' →
  queue_inv s →
  queue_inv (log (Producer n) (AInsert e)
               (set_producer n WInc (with_heap h' s))).
Proof.
  intros Hlock Hpc Hset (l & [Hnd Hdom] & [Hown Hdist] & Hl & Hc & Hf).
  assert (mutex s = Some (Producer n)) as Hm by by eapply producer_mutex.
  unfold phase_of in *. rewrite Hm, Hpc in *.
  cbn [wphase links counted queued fifo] in *.
  destruct (Hown (Producer n) c) as [Hc_in Hc_notin]; [by simpl; rewrite Hpc|].
  assert (∀ x, is_Some (heap s !! x) → is_Some (h' !! x)) as Hsub.
  { intros x. by destruct (set_event_lookup _ _ _ _ x Hset) as (_ & _ & _ & ->). }
  set (s' := log (Producer n) (AInsert e)
               (set_producer n WInc (with_heap h' s))).
  assert (∀ t, owned s' t
               = if decide (t = Producer n) then None else owned s t) as Ho'
    by (intros t; by apply (owned_producer_step s s' n WInc)).
  exists (l ++ [c]). unfold queue_ok, own_ok. setoid_rewrite Ho'. subst s'.
  unfold phase_of, history in *. traces.
  rewrite Hm, lookup_insert_eq. cbn [wphase links counted queued fifo].
  split; [|split; [|split; [|split]]].
  - split.
    + rewrite app_comm_cons. apply NoDup_app. split; [done|]. split.
      * intros x Hx ->%list_elem_of_singleton. done.
      * apply NoDup_singleton.
    + intros p Hp. apply Hsub. rewrite app_comm_cons in Hp.
      apply elem_of_app in Hp as [Hp|Hp]; [auto|].
      apply list_elem_of_singleton in Hp as ->. auto.
  - split.
    + intros t c0. case_decide as Ht; [done|]. intros Ho.
      destruct (Hown t c0 Ho) as [? ?]. split; [auto|].
      rewrite app_comm_cons. apply not_elem_of_app. split; [done|].
      intros ->%list_elem_of_singleton. apply Ht.
      apply (Hdist _ _ c); [done|]. by simpl; rewrite Hpc.
    + intros t1 t2 c0. repeat case_decide; try done. apply Hdist.
  - eapply is_queue_frame; [| |done]; intros x _.
    + by destruct (set_event_lookup _ _ _ _ x Hset) as (_ & _ & -> & _).
    + by destruct (set_event_lookup _ _ _ _ x Hset) as (_ & -> & _).
  - rewrite length_app. simpl. lia.
  - rewrite Hf, events_of_app, <- app_assoc. f_equal. f_equal.
    + symmetry. apply events_of_frame. intros x Hx.
      destruct (set_event_lookup _ _ _ _ x Hset) as (-> & _).
      rewrite decide_False; [done|]. intros ->.
      by apply Hc_notin, list_elem_of_further.
    + unfold events_of. simpl.
      destruct (set_event_lookup _ _ _ _ c Hset) as (-> & _).
      by rewrite decide_True.
Qed.

(** *** Line 398 *)
Lemma queue_inv_inc s n :
  lock_inv s → producers s !! n = Some WInc →
  queue_inv s →
  queue_inv (set_producer n WSignal (with_num_events (num_events s + 1) s)).
Proof.
  intros Hlock Hpc (l & Hal & Hown & Hl & Hc & Hf).
  assert (mutex s = Some (Producer n)) as Hm by by eapply producer_mutex.
  unfold phase_of in *. rewrite Hm, Hpc in *.
  cbn [wphase links counted queued fifo] in *.
  exists l. unfold queue_ok, phase_of, history in *. fields. rewrite Hm.
  rewrite lookup_insert_eq. cbn [wphase links counted queued fifo].
  split; [done|]. split; [by eapply own_ok_frame; [| |done]; [owned_same|]|].
  done.
Qed.

(** *** Line 381 *)
Lemma hlast_mono h h' x y : h ⊆ h' → hlast h x = Some y → hlast h' x = Some y.
Proof.
  unfold hlast. intros Hsub. destruct (h !! x) as [c|] eqn:Hx; [|done].
  by rewrite (lookup_weaken _ _ _ _ Hx Hsub).
Qed.

Lemma hnext_mono h h' x y : h ⊆ h' → hnext h x = Some y → hnext h' x = Some y.
Proof.
  unfold hnext. intros Hsub. destruct (h !! x) as [c|] eqn:Hx; [|done].
  by rewrite (lookup_weaken _ _ _ _ Hx Hsub).
Qed.

Lemma lchain_mono h h' p xs q : h ⊆ h' → lchain h p xs q → lchain h' p xs q.
Proof.
  intros Hsub. revert p. induction xs as [|x r IH]; intros p; simpl.
  - by apply hlast_mono.
  - intros [? ?]. split; [by eapply hlast_mono|by apply IH].
Qed.

Lemma nchain_mono h h' p xs q : h ⊆ h' → nchain h p xs q → nchain h' p xs q.
Proof.
  intros Hsub. revert p. induction xs as [|x r IH]; intros p; simpl.
  - by apply hnext_mono.
  - intros [? ?]. split; [by eapply hnext_mono|by apply IH].
Qed.

Lemma is_queue_mono h h' l : h ⊆ h' → is_queue h l → is_queue h' l.
Proof.
  intros Hsub [? ?]. split; [by eapply lchain_mono|by eapply nchain_mono].
Qed.

Lemma links_mono ph h h' l : h ⊆ h' → links ph h l → links ph h' l.
Proof.
  intros Hsub Hl. destruct ph; simpl in *;
    repeat match goal with H : _ ∧ _ |- _ => destruct H end;
    split_and?;
    eauto using is_queue_mono, lchain_mono, nchain_mono, hlast_mono,
      hnext_mono.
  match goal with H : is_Some _ |- _ => destruct H as [c' Hc'] end.
  by rewrite (lookup_weaken _ _ _ _ Hc' Hsub).
Qed.

Lemma queued_allocated ph h l x :
  allocated h l → links ph h l → x ∈ queued ph l → is_Some (h !! x).
Proof.
  intros [_ Hdom] Hl Hx.
  assert (x ∈ l → is_Some (h !! x)) as Hin
    by (intros ?; by apply Hdom, list_elem_of_further).
  destruct ph; simpl in *; auto.
  - apply elem_of_cons in Hx as [->|?]; [|auto].
    destruct Hl as (_ & _ & Hn). unfold hnext in Hn.
    by destruct (h !! c).
  - apply elem_of_cons in Hx as [->|?]; [|auto]. tauto.
Qed.

Lemma queue_inv_malloc s n e p :
  lock_inv s → producers s !! n = Some (WMalloc e) → heap s !! p = None →
  queue_inv s →
  queue_inv (log (Producer n) (AMalloc (Some p))
               (set_producer n (WNullCheck e (Some p))
                  (with_heap (<[p := indeterminate]> (heap s)) s))).
Proof.
  intros Hlock Hpc Hp (l & [Hnd Hdom] & [Hown Hdist] & Hl & Hc & Hf).
  assert (heap s ⊆ <[p := indeterminate]> (heap s)) as Hsub
    by by apply insert_subseteq.
  assert (∀ x, is_Some (heap s !! x) →
               <[p := indeterminate]> (heap s) !! x = heap s !! x) as Hsame.
  { intros x Hx. apply lookup_insert_ne. intros ->. rewrite Hp in Hx.
    by destruct Hx. }
  set (s' := log (Producer n) (AMalloc (Some p))
               (set_producer n (WNullCheck e (Some p))
                  (with_heap (<[p := indeterminate]> (heap s)) s))).
  assert (phase_of s' = phase_of s) as Hph by (subst s'; phase_same).
  exists l. unfold queue_ok. rewrite Hph. subst s'.
  unfold history in *. traces.
  split; [|split; [|split; [|split]]].
  - split; [done|]. intros x Hx. rewrite Hsame; auto.
  - split.
    + intros [| |m] c0; unfold owned; fields.
      * intros Ho. destruct (Hown Consumer c0 Ho) as [? ?].
        split; [|done]. rewrite Hsame; auto.
      * done.
      * destruct (decide (n = m)) as [->|Hnm].
        -- rewrite lookup_insert_eq. intros [= <-]. split.
           ++ by rewrite lookup_insert_eq.
           ++ intros Hin. apply Hdom in Hin. rewrite Hp in Hin.
              by destruct Hin.
        -- rewrite lookup_insert_ne by done. intros Ho.
           destruct (Hown (Producer m) c0 Ho) as [? ?].
           split; [|done]. rewrite Hsame; auto.
    + assert (∀ t c0, owned s t = Some c0 → c0 ≠ p) as Hfresh.
      { intros t c0 Ho ->. destruct (Hown t p Ho) as [Hin _].
        rewrite Hp in Hin. by destruct Hin. }
      assert (owned s (Producer n) = None) as Hnone
        by (by simpl; rewrite Hpc).
      intros t1 t2 c0 H1 H2.
      destruct (decide (t1 = Producer n)) as [->|Hn1];
        destruct (decide (t2 = Producer n)) as [->|Hn2]; [done| | |].
      * unfold owned in H1. fields. rewrite lookup_insert_eq in H1.
        injection H1 as <-. exfalso. apply (Hfresh t2 p); [|done].
        destruct t2 as [| |m]; [done..|]. unfold owned in *. fields.
        rewrite lookup_insert_ne in H2 by congruence. done.
      * unfold owned in H2. fields. rewrite lookup_insert_eq in H2.
        injection H2 as <-. exfalso. apply (Hfresh t1 p); [|done].
        destruct t1 as [| |m]; [done..|]. unfold owned in *. fields.
        rewrite lookup_insert_ne in H1 by congruence. done.
      * apply (Hdist t1 t2 c0).
        -- destruct t1 as [| |m]; [done..|]. unfold owned in *. fields.
           rewrite lookup_insert_ne in H1 by congruence. done.
        -- destruct t2 as [| |m]; [done..|]. unfold owned in *. fields.
           rewrite lookup_insert_ne in H2 by congruence. done.
  - by eapply links_mono.
  - done.
  - erewrite events_of_frame; [exact Hf|]. intros x Hx.
    unfold hevent. rewrite Hsame; [done|].
    by eapply queued_allocated.
Qed.

Lemma queue_inv_step l s s' :
  lock_inv s → queue_inv s → step l s = Some s' → queue_inv s'.
Proof.
  intros Hlock Hinv H.
  revert Hinv.
  step_inv H; try (frame_solve; fail).
  - by apply queue_inv_last.
  - by apply queue_inv_assert_fail.
  - by apply queue_inv_assert_skip.
  - by apply queue_inv_assert_ok.
  - destruct (decide (container = events_addr)) as [->|?];
      [by eapply queue_inv_doomed_unlink1|by eapply queue_inv_unlink1].
  - destruct (decide (container = events_addr)) as [->|?];
      [by eapply queue_inv_doomed_unlink2|by eapply queue_inv_unlink2].
  - destruct (decide (container = events_addr)) as [->|?];
      [by eapply queue_inv_doomed_copy|by eapply queue_inv_copy].
  - destruct (decide (container = events_addr)) as [->|?];
      [by eapply queue_inv_doomed_dec|by eapply queue_inv_dec].
  - by eapply queue_inv_free.
  - by eapply queue_inv_link1.
  - by eapply queue_inv_link2.
  - by eapply queue_inv_link3.
  - by eapply queue_inv_link4.
  - by eapply queue_inv_store.
  - by eapply queue_inv_inc.
  - by eapply queue_inv_malloc.
Qed.

(** ** What [android_next_event] returns *)
Lemma returned_snoc h x :
  returned (h ++ [x])
  = returned h ++ match x.2 with
                  | AReturn (RNextEvent e) => [e]
                  | _ => []
                  end.
Proof.
  unfold returned. rewrite omap_app. simpl.
  destruct (x.2) as [|[]| | | | | | | | | | | | | | | | | | | |]; by simpl.
Qed.

Lemma woken_in_hand pc : in_hand (woken pc) = in_hand pc.
Proof. by destruct pc. Qed.

Lemma return_inv_init chk : return_inv (android_init_events chk).
Proof. reflexivity. Qed.

Lemma return_inv_step l s s' :
  return_inv s → step l s = Some s' → return_inv s'.
Proof.
  intros Hinv H. unfold return_inv, history in *.
  step_inv H; fields; signals;
    rewrite ?reverse_cons, ?removed_snoc, ?returned_snoc, ?woken_in_hand;
    simpl; rewrite ?app_nil_r; try same Hinv;
    try match goal with H : consumer _ = _ |- _ => rewrite H in Hinv end;
    simpl in Hinv; rewrite ?app_nil_r in Hinv; rewrite ?Hinv;
    try done; by rewrite <- ?app_assoc.
Qed.

(** ** All invariants together *)
Lemma inv_init chk : inv (android_init_events chk).
Proof.
  repeat split; auto using lock_inv_init, sync_inv_init, fuse_inv_init,
    proxy_inv_init, queue_inv_init, return_inv_init.
  all: apply lock_inv_init.
Qed.

Lemma inv_step l s s' : inv s → step l s = Some s' → inv s'.
Proof.
  intros (? & ? & ? & ? & ? & ?) Hstep.
  split_and!; eauto using lock_inv_step, sync_inv_step, fuse_inv_step,
    proxy_inv_step, queue_inv_step, return_inv_step.
Qed.

Lemma inv_steps ls s s' : inv s → steps ls s = Some s' → inv s'.
Proof.
  revert s. induction ls as [|l ls IH]; intros s Hinv; simpl.
  - by intros [= <-].
  - destruct (step l s) as [s1|] eqn:Hstep; [|done].
    eauto using inv_step.
Qed.

Lemma reachable_inv s : reachable s → inv s.
Proof. intros (chk & ls & Hls). eapply inv_steps; [apply inv_init|done]. Qed.

Lemma steps_app ls1 ls2 s :
  steps (ls1 ++ ls2) s = steps ls1 s ≫= steps ls2.
Proof.
  revert s. induction ls1 as [|l ls IH]; intros s; simpl; [done|].
  by destruct (step l s).
Qed.

Lemma reachable_steps ls s s' :
  reachable s → steps ls s = Some s' → reachable s'.
Proof.
  intros (chk & ls0 & H0) H. exists chk, (ls0 ++ ls).
  rewrite steps_app, H0. done.
Qed.

Lemma reachable_step l s s' :
  reachable s → step l s = Some s' → reachable s'.
Proof.
  intros Hr H. apply (reachable_steps [l] s); [done|]. simpl. by rewrite H.
Qed.

(** ** Reading the queue *)
Lemma walk_lchain fuel h p l :
  events_addr ∉ l → (length l ≤ fuel)%nat →
  lchain h p l events_addr →
  walk fuel h (head_of l events_addr) = l.
Proof.
  revert fuel p. induction l as [|x r IH]; intros fuel p Hs Hfuel Hl.
  - by destruct fuel.
  - destruct fuel as [|fuel]; simpl in Hfuel; [lia|].
    apply not_elem_of_cons in Hs as [Hsx Hsr].
    destruct Hl as [Hp Hr]. simpl.
    rewrite decide_False by done.
    pose proof (lchain_head _ _ _ _ Hr) as Hx. unfold hlast in Hx.
    destruct (h !! x) as [c|]; [|done]. simpl in Hx.
    injection Hx as ->. f_equal. eapply IH; [done|lia|done].
Qed.

Lemma allocated_size h l : allocated h l → (length l < size h)%nat.
Proof.
  intros [Hnd Hdom].
  assert (list_to_set (events_addr :: l) ⊆ dom h) as Hsub.
  { intros x Hx. apply elem_of_list_to_set in Hx. by apply elem_of_dom, Hdom. }
  apply subseteq_size in Hsub.
  rewrite size_list_to_set, size_dom in Hsub by done. simpl in Hsub. lia.
Qed.

Lemma queue_nodes_stable s l :
  allocated (heap s) l → is_queue (heap s) l → queue_nodes s = l.
Proof.
  intros Hal [Hl _]. unfold queue_nodes.
  pose proof (lchain_head _ _ _ _ Hl) as Hhd. unfold hlast in Hhd.
  destruct (heap s !! events_addr) as [ev|]; [|done].
  simpl in Hhd. injection Hhd as ->.
  pose proof (allocated_size _ _ Hal). destruct Hal as [Hnd _].
  apply NoDup_cons in Hnd as [? _].
  eapply walk_lchain; [done|lia|done].
Qed.

(** When nobody is inside the critical section the list is whole. *)
Lemma queue_inv_unlocked s :
  queue_inv s → mutex s = None →
  num_events s = Z.of_nat (length (queue_nodes s))
  ∧ inserted (history s) = removed (history s) ++ pending_events s.
Proof.
  intros (l & Hal & _ & Hl & Hc & Hf) Hm.
  unfold phase_of in *. rewrite Hm in *. simpl in *.
  unfold pending_events. by rewrite (queue_nodes_stable s l).
Qed.

(** ** [android_select] with events in the queue *)
Lemma early_at_woken a pc acts :
  early_at a pc acts → early_at a (woken pc) acts.
Proof. by destruct 1; constructor. Qed.

Lemma early_at_carm a pc acts : early_at a pc acts → carm pc = 0%nat.
Proof. by destruct 1. Qed.

Lemma early_frag_call a s s' :
  0 < num_events s → step (LCall (CallSelect a)) s = Some s' →
  early_frag a s s'.
Proof.
  intros Hn H. unfold early_frag, history. step_inv H; fields.
  all: split; [done|]; exists [(Consumer, ACall (CallSelect a))];
    rewrite reverse_cons; split; [done|]; split; [constructor|];
    by repeat constructor.
Qed.

Lemma early_frag_step a l s0 s s' :
  sync_inv s → early_frag a s0 s → is_call l = false →
  step l s = Some s' → early_frag a s0 s'.
Proof.
  intros Hsync (Hn & t & Ht & Hat & Hnp) Hcall H.
  pose proof (early_at_carm _ _ _ Hat) as Hcarm.
  unfold early_frag, history, sync_inv in *.
  step_inv H; try discriminate Hcall; fields; signals;
    rewrite ?reverse_cons, ?Ht, <- ?app_assoc;
    try match goal with
    | H : consumer _ = _ |- _ => try rewrite H in Hat; inversion Hat; subst
    end;
    try match goal with
    | H : proxy _ = PPselect |- _ => rewrite H in Hsync; simpl in Hsync; lia
    end.
  all: try (exfalso; lia).
  all: (split; [lia|]); eexists; (split; [reflexivity|]);
    rewrite ?actions_of_app; simpl; rewrite ?app_nil_r;
    (split; [|try (apply Forall_app; split; [done|by repeat constructor])]);
    try eassumption; try (by apply early_at_woken);
    try (match goal with
         | H : _ = actions_of Consumer _ |- _ => rewrite <- H
         end; simpl; by constructor).
Qed.

Lemma early_frag_steps a ls s0 s s' :
  inv s → early_frag a s0 s → no_calls ls = true →
  steps ls s = Some s' → early_frag a s0 s'.
Proof.
  revert s. induction ls as [|l ls IH]; intros s Hinv Hfrag Hcalls; simpl.
  - by intros [= <-].
  - simpl in Hcalls. apply andb_prop in Hcalls as [Hl Hls].
    apply negb_true_iff in Hl.
    destruct (step l s) as [s1|] eqn:Hstep; [|done].
    apply IH; [by eapply inv_step| |done].
    eapply early_frag_step; [|done..]. apply Hinv.
Qed.

(** The whole of such a call. *)
Lemma early_return a ls s s' :
  reachable s → 0 < num_events s → no_calls ls = true →
  steps (LCall (CallSelect a) :: ls) s = Some s' →
  early_frag a s s'.
Proof.
  intros Hr Hn Hcalls H. simpl in H.
  destruct (step (LCall (CallSelect a)) s) as [s1|] eqn:Hcall; [|done].
  eapply early_frag_steps; [| |done..].
  - eapply inv_step; [|done]. by apply reachable_inv.
  - by apply early_frag_call.
Qed.

(** * The example runs *)

Lemma exec_reachable chk ls : runs chk ls = true → reachable (exec chk ls).
Proof.
  unfold runs, exec. intros Hs. exists chk, ls.
  by destruct (steps ls (android_init_events chk)).
Qed.

Example two_events_pending :
  num_events two_queued = 2 ∧ pending_events two_queued = [A; B].
Proof. by vm_compute. Qed.

Example two_events_dequeued :
  consumer one_taken = CDone (RNextEvent A)
  ∧ consumer (exec true (two_events ++ next_event None ++ next_event None))
    = CDone (RNextEvent B).
Proof. by vm_compute. Qed.

(** * Theorems about the multiplexer, [android_select] *)







Lemma early_three_steps a s :
  consumer s = SelLock a → mutex s = None → num_events s ≠ 0 →
  ∃ s1, steps (replicate 3 (LRun Consumer)) s = Some s1
        ∧ consumer s1 = CDone (RSelect 1).
Proof.
  intros Hpc Hm Hn. simpl.
  unfold step at 1, aborted, consumer_step, android_select, lock_mutex.
  rewrite Hpc, Hm. simpl.
  unfold step at 1, aborted, consumer_step, android_select. fields.
  cbn [running]. rewrite decide_False by done.
  unfold step, aborted, consumer_step, android_select, unlock_mutex, return_.
  fields. cbn [running]. rewrite decide_True by done. simpl. eauto.
Qed.

(** C3.  A call of [android_select] made while [num_events] is positive
    never reaches pselect: from the call on, whatever the other threads do,
    nobody invokes pselect, and the Emacs thread does nothing but lock the
    queue mutex, unlock it and return 1.  With the mutex free it returns
    after three steps of its own. *)
Theorem select_short_circuit a ls s s' :
  reachable s → 0 < num_events s → no_calls ls = true →
  steps (LCall (CallSelect a) :: ls) s = Some s' →
  (∃ t, history s' = history s ++ t
        ∧ Forall (fun x => is_pselect x.2 = false) t
        ∧ actions_of Consumer t
          `prefix_of` [ACall (CallSelect a); ALock QueueMutex;
                       AUnlock QueueMutex; AReturn (RSelect 1)]
        ∧ ∀ r, consumer s' = CDone r →
               r = RSelect 1
               ∧ actions_of Consumer t
                 = [ACall (CallSelect a); ALock QueueMutex;
                    AUnlock QueueMutex; AReturn (RSelect 1)])
  ∧ (mutex s = None →
     ∃ s1, steps (select_early a) s = Some s1
           ∧ consumer s1 = CDone (RSelect 1)).
Proof.
  intros Hr Hn Hcalls Hsteps. split.
  - destruct (early_return a ls s s' Hr Hn Hcalls Hsteps)
      as (_ & t & Ht & Hat & Hnp).
    exists t. split_and!; [done..| |].
    + inversion Hat.
      * by exists [ALock QueueMutex; AUnlock QueueMutex; AReturn (RSelect 1)].
      * by exists [AUnlock QueueMutex; AReturn (RSelect 1)].
      * by exists [AUnlock QueueMutex; AReturn (RSelect 1)].
      * by exists [].
    + intros r Hdone. rewrite Hdone in Hat. by inversion Hat.
  - intros Hm. simpl in Hsteps.
    destruct (step (LCall (CallSelect a)) s) as [s0|] eqn:Hcall; [|done].
    clear Hsteps. unfold select_early. simpl. rewrite Hcall.
    apply (early_three_steps a); step_inv Hcall; fields; first [done | lia].
Qed.

Lemma select_short_circuit_witness :
  (∃ t, history early_returned = history two_queued ++ t
        ∧ Forall (fun x => is_pselect x.2 = false) t
        ∧ actions_of Consumer t
          `prefix_of` [ACall (CallSelect no_fds); ALock QueueMutex;
                       AUnlock QueueMutex; AReturn (RSelect 1)]
        ∧ ∀ r, consumer early_returned = CDone r →
               r = RSelect 1
               ∧ actions_of Consumer t
                 = [ACall (CallSelect no_fds); ALock QueueMutex;
                    AUnlock QueueMutex; AReturn (RSelect 1)])
  ∧ (mutex two_queued = None →
     ∃ s1, steps (select_early no_fds) two_queued = Some s1
           ∧ consumer s1 = CDone (RSelect 1)).
Proof.
  apply (select_short_circuit no_fds (replicate 3 (LRun Consumer))
           two_queued early_returned).
  - apply exec_reachable. by vm_compute.
  - by vm_compute.
  - reflexivity.
  - by vm_compute.
Defined.

(** C10.  During a call of [android_select] made while [num_events] is
    positive, every step of the Emacs thread, at whatever point of the call
    and whatever the other threads did before, leaves alone the arguments
    stored for the select thread, [android_pselect_completed],
    [android_pselect_rc], the semaphore, the pending SIGUSR2, the select
    mutex, the queue and [num_events], the select thread and the producers;
    what it does is lock the queue mutex, unlock it, or return 1. *)
Theorem select_early_frame a ls s s1 s2 :
  reachable s → 0 < num_events s → no_calls ls = true →
  steps (LCall (CallSelect a) :: ls) s = Some s1 →
  step (LRun Consumer) s1 = Some s2 →
  select_untouched s1 s2
  ∧ ∃ new, trace s2 = new ++ trace s1
           ∧ Forall (fun x => x ∈ [(Consumer, ALock QueueMutex);
                                    (Consumer, AUnlock QueueMutex);
                                    (Consumer, AReturn (RSelect 1))]) new.
Proof.
  intros Hr Hn Hcalls Hsteps Hstep.
  destruct (early_return a ls s s1 Hr Hn Hcalls Hsteps)
    as (Hn1 & t & _ & Hat & _).
  unfold select_untouched.
  step_inv Hstep; fields;
    match goal with
    | H : consumer _ = _ |- _ => try rewrite H in Hat; inversion Hat; subst
    end;
    try (exfalso; lia).
  - split; [done|]. exists [(Consumer, ALock QueueMutex)].
    split; [done|]. repeat constructor.
  - split; [done|]. exists []. by split.
  - split; [done|].
    exists [(Consumer, AReturn (RSelect 1)); (Consumer, AUnlock QueueMutex)].
    split; [done|]. repeat constructor.
Qed.

Lemma select_early_frame_witness :
  select_untouched early_returning early_returned
  ∧ ∃ new, trace early_returned = new ++ trace early_returning
           ∧ Forall (fun x => x ∈ [(Consumer, ALock QueueMutex);
                                    (Consumer, AUnlock QueueMutex);
                                    (Consumer, AReturn (RSelect 1))]) new.
Proof.
  apply (select_early_frame no_fds (replicate 2 (LRun Consumer))
           two_queued).
  - apply exec_reachable. by vm_compute.
  - by vm_compute.
  - reflexivity.
  - by vm_compute.
  - by vm_compute.
Defined.

(** * Theorems about the event queue *)

(** C7.  When [malloc] fails in [android_write_event], the failing call
    changes nothing but the caller's own position, and whenever the caller
    runs next, whatever happened in between and whoever holds the mutex, it
    returns at once: the queue, the count, the mutexes, the other threads
    (so nobody was signalled) and the other producers are as they were, and
    the caller is outside [android_write_event]. *)
Theorem write_event_malloc_fails s n e :
  aborted s = false → producers s !! n = Some (WMalloc e) →
  ∃ s1, step (LMalloc n None) s = Some s1
        ∧ shared_untouched s s1
        ∧ producers s1 = <[n := WNullCheck e None]> (producers s)
        ∧ trace s1 = (Producer n, AMalloc None) :: trace s
        ∧ ∀ s1', aborted s1' = false →
                 producers s1' !! n = Some (WNullCheck e None) →
                 ∃ s2, step (LRun (Producer n)) s1' = Some s2
                       ∧ shared_untouched s1' s2
                       ∧ producers s2 = delete n (producers s1')
                       ∧ trace s2 = (Producer n, ALeave) :: trace s1'.
Proof.
  intros Hab Hpc. unfold step, malloc_step. rewrite Hab, Hpc.
  eexists. split; [done|]. split; [by repeat split|].
  split; [done|]. split; [done|].
  intros s1' Hab' Hpc'. unfold android_write_event. rewrite Hab', Hpc'.
  eexists. split; [done|]. by repeat split.
Qed.

Lemma write_event_malloc_fails_witness :
  ∃ s1, step (LMalloc 0 None) write_entered = Some s1
        ∧ shared_untouched write_entered s1
        ∧ producers s1
          = <[0%nat := WNullCheck A None]> (producers write_entered)
        ∧ trace s1 = (Producer 0, AMalloc None) :: trace write_entered
        ∧ ∀ s1', aborted s1' = false →
                 producers s1' !! 0%nat = Some (WNullCheck A None) →
                 ∃ s2, step (LRun (Producer 0)) s1' = Some s2
                       ∧ shared_untouched s1' s2
                       ∧ producers s2 = delete 0%nat (producers s1')
                       ∧ trace s2 = (Producer 0, ALeave) :: trace s1'.
Proof.
  apply (write_event_malloc_fails write_entered 0 A).
  - by vm_compute.
  - by vm_compute.
Defined.




(** C5.  The events that [android_next_event] has returned are, in the same
    order, the first of the events that were put into the queue; and while
    nobody holds the queue mutex, the rest of them are the events in the
    queue, from the one that will be returned next to the newest. *)
Theorem queue_fifo s :
  reachable s →
  returned (history s) `prefix_of` inserted (history s)
  ∧ (mutex s = None →
     inserted (history s) = returned (history s) ++ pending_events s).
Proof.
  intros Hr.
  destruct (reachable_inv s Hr) as (Hlock & _ & _ & _ & Hq & Hret).
  unfold return_inv in Hret. split.
  - destruct Hq as (l & _ & _ & _ & _ & Hf).
    destruct (phase_of s) eqn:Hph; simpl in Hf;
      try (rewrite Hf, Hret, <- app_assoc; by eexists).
    assert (in_hand (consumer s) = [e]) as Hhand.
    { unfold phase_of in Hph. destruct (mutex s) as [[| |m]|]; try done.
      - destruct (consumer s); simpl in Hph; try done;
          case_decide; by simplify_eq.
      - destruct (producers s !! m) as [[]|]; by simpl in Hph. }
    rewrite Hret, Hhand in Hf. apply app_inj_tail in Hf as [-> _].
    exists []. by rewrite app_nil_r.
  - intros Hm. destruct (queue_inv_unlocked s Hq Hm) as [_ Hf].
    rewrite Hf, Hret.
    assert (cpc_holds (consumer s) = false) as Hnh.
    { destruct (cpc_holds (consumer s)) eqn:Hh; [|done].
      apply (Hlock Consumer) in Hh. congruence. }
    destruct (consumer s); try discriminate Hnh; simpl;
      by rewrite app_nil_r.
Qed.

Lemma queue_fifo_witness :
  returned (history one_taken) `prefix_of` inserted (history one_taken)
  ∧ (mutex one_taken = None →
     inserted (history one_taken)
     = returned (history one_taken) ++ pending_events one_taken).
Proof.
  apply (queue_fifo one_taken).
  apply exec_reachable. by vm_compute.
Defined.



(** * Theorems about the two runs *)

(** C4 fails on the code: this run, in which no wait returns without a
    signal, ends with 1025 events in the queue. *)
Theorem capacity_exceeded :
  no_spurious overfull = true
  ∧ num_events (exec true fill_queue) = 1024
  ∧ runs true overfull = true
  ∧ num_events (exec true overfull) = 1025
  ∧ length (queue_nodes (exec true overfull)) = 1025%nat
  ∧ ¬ (∀ s, reachable s → num_events s <= 1024).
Proof.
  assert (runs true overfull = true) as Hruns by by vm_compute.
  assert (num_events (exec true overfull) = 1025) as Hn by by vm_compute.
  split_and!; [by vm_compute|by vm_compute|done|done|by vm_compute|].
  intros Hcap.
  specialize (Hcap (exec true overfull) (exec_reachable _ _ Hruns)).
  rewrite Hn in Hcap. lia.
Qed.

(** C9 fails on the code: this run, in which no wait returns without a
    signal, reaches line 359 with the sentinel as the container, the queue
    empty and the Emacs thread woken by the select thread.  With
    ENABLE_CHECKING the assertion fails.  Without it the thread goes on:
    four statements later [num_events] is -1 and the thread is about to
    pass the sentinel to [free]. *)
Theorem next_event_assertion_fails :
  no_spurious stale_signal = true
  ∧ runs true stale_signal = true
  ∧ consumer (exec true stale_signal) = CAbort
  ∧ num_events (exec true stale_signal) = 0
  ∧ head (trace (exec true stale_signal)) = Some (Consumer, AAssertFail)
  ∧ runs false (stale_signal ++ replicate 4 (LRun Consumer)) = true
  ∧ consumer (exec false (stale_signal ++ replicate 4 (LRun Consumer)))
    = NxtFree events_addr (xconfigure 0 0 0 0 0 0)
  ∧ num_events (exec false (stale_signal ++ replicate 4 (LRun Consumer)))
    = -1
  ∧ step (LRun Consumer)
      (exec false (stale_signal ++ replicate 4 (LRun Consumer))) = None
  ∧ ¬ (∀ s c, reachable s → consumer s = NxtAssert c → c ≠ events_addr).
Proof.
  split_and!; [by vm_compute..|].
  intros Hassert.
  apply (Hassert (exec true (take (length stale_signal - 1) stale_signal))
           events_addr).
  - apply exec_reachable. by vm_compute.
  - by vm_compute.
  - done.
Qed.
